(** * remark-code-snippets: the transformer of [packages/code-snippets/src/index.ts]

    A shallow embedding of the remark plugin that replaces the content of
    fenced code blocks annotated with [code={identifier}] by the text of a
    template literal found in an imported module.

    Conventions.
    - A JavaScript string is a [string]: the sequence of the bytes of its
      UTF-8 encoding.  All the patterns of the source ([code={], [/],
      identifier characters, [}]) are ASCII, so searching bytes and
      searching UTF-16 code units find the same places.
    - The collaborators of the plugin are inputs: the file system
      ([fs.existsSync], [fs.readFileSync]), the parser ([acorn.parse]), the
      formatter ([prettier.format]) and the working directory
      ([process.cwd()]) are the fields of [Env]; an ESTree is a [node].
    - [throw] is the left summand of [result].
    - The import index is a plain object: a map of its own properties,
      read together with the members it inherits from [Object.prototype]. *)

From stdpp Require Import base option list gmap strings.
From Stdlib Require Import Ascii.

Set Warnings "-register-all".

(** ** Strings *)

Module Js.

(** [s.startsWith(p)] *)
Definition startsWith (s p : string) : bool := String.prefix p s.

(** [s.includes(p)] *)
Fixpoint includes (s p : string) : bool :=
  String.prefix p s ||
  match s with
  | EmptyString => false
  | String _ s' => includes s' p
  end.

(** [s.slice(n)] for [0 <= n] *)
Fixpoint slice (n : nat) (s : string) : string :=
  match n, s with
  | O, _ => s
  | S n', String _ s' => slice n' s'
  | S _, EmptyString => EmptyString
  end.

(** [s.replace(p, r)] for a string pattern [p]: the first occurrence of [p]
    is replaced.  The source only calls it with the replacement [''], the
    special [$] patterns of replacement strings never arise. *)
Fixpoint replace (s p r : string) : string :=
  if String.prefix p s then r +:+ slice (String.length p) s
  else match s with
       | EmptyString => EmptyString
       | String c s' => String c (replace s' p r)
       end.

(** [l.join(sep)] *)
Fixpoint join (sep : string) (l : list string) : string :=
  match l with
  | [] => ""
  | [x] => x
  | x :: l' => x +:+ sep +:+ join sep l'
  end.

(** [s.split("/")] *)
Fixpoint split_slash (s : string) : list string :=
  match s with
  | EmptyString => [""]
  | String c s' =>
      if decide (c = "/"%char) then "" :: split_slash s'
      else match split_slash s' with
           | h :: t => String c h :: t
           | [] => [String c ""]
           end
  end.

End Js.

(** Every character of [s] satisfies [f]. *)
Fixpoint allChars (f : ascii → bool) (s : string) : bool :=
  match s with
  | EmptyString => true
  | String c s' => f c && allChars f s'
  end.

(** ** Errors *)

(** What the transformer throws.  The three errors of the plugin itself keep
    the values their message is built from; the errors of the collaborators
    and of the runtime keep the message they come with. *)
Inductive error : Type :=
| SyntaxError (msg : string)                       (* acorn.parse *)
| ReadError (msg : string)                         (* fs.readFileSync *)
| TypeError (msg : string)                         (* the runtime *)
| ImportNotFound (varName : string)                (* lines 72-77 *)
| PathNotResolved (sourcePath basePath : string)
                  (tryExtensions : list string)    (* lines 105-109 *)
| ExportNotFound (absolutePath varName : string).  (* line 136 *)

(** The two places where a value that is no string is used as a specifier:
    the member [Object.prototype[name]] handed to [resolveModulePath]. *)
Inductive misuse : Type :=
| NotAFunction (name : string)   (* line 86: [sourcePath.startsWith] *)
| NotAPath (name : string).      (* line 94: [path.resolve] *)

Definition result (A : Type) : Type := error + A.

Definition bind {A B : Type} (m : result A) (k : A → result B) : result B :=
  match m with
  | inl e => inl e
  | inr a => k a
  end.

Notation "'try!' x := m 'in' k" := (bind m (λ x, k))
  (at level 10, x name, m at level 100, k at level 200).

(** ** ESTree, as far as the plugin looks at it *)

Inductive import_specifier : Type :=
| ImportSpecifier (imported local : string)
| ImportDefaultSpecifier (local : string)
| ImportNamespaceSpecifier (local : string).

(** [TemplateElement]: [value.cooked] is [undefined] only for an invalid
    escape in a tagged template. *)
Record template_element : Type := TemplateElement {
  cooked : option string;
  raw : string
}.

(** Every other node type is an [OtherNode] with its child nodes in the order
    in which the base walker of acorn-walk descends into them (a function:
    name, parameters, body; a block: its statements; and so on). *)
Inductive node : Type :=
| Program (body : list node)
| ImportDeclaration (specifiers : list import_specifier) (source : string)
| ExportNamedDeclaration (declaration : option node)
| VariableDeclaration (kind : string) (declarations : list declarator)
| TemplateLiteral (quasis : list template_element) (expressions : list node)
| Identifier (name : string)
| OtherNode (type : string) (children : list node)
with declarator : Type :=
| VariableDeclarator (id : node) (init : option node).

(** ** acorn-walk *)

(** [acornWalk.simple(ast, visitors)]: the walker descends into the children
    of a node first and calls the visitor of the node's type afterwards, so
    the callbacks see the nodes in this order. *)
Fixpoint postorder (n : node) : list node :=
  match n with
  | Program body => flat_map postorder body ++ [n]
  | ImportDeclaration _ _ => [n]
  | ExportNamedDeclaration d =>
      match d with Some d => postorder d | None => [] end ++ [n]
  | VariableDeclaration _ ds =>
      flat_map (λ d, match d with
                     | VariableDeclarator i e =>
                         postorder i ++
                         match e with Some e => postorder e | None => [] end
                     end) ds ++ [n]
  | TemplateLiteral _ es => flat_map postorder es ++ [n]
  | Identifier _ => [n]
  | OtherNode _ cs => flat_map postorder cs ++ [n]
  end.

Definition simple {S : Type} (ast : node) (visitor : S → node → S) (st : S) : S :=
  fold_left visitor (postorder ast) st.

(** ** Export extractor (lines 119-137) *)

(** [d.init.quasis.map(q => q.value.cooked).join('')]; [join] prints
    [undefined] as the empty string. *)
Definition cookedText (quasis : list template_element) : string :=
  Js.join "" (map (λ q, default "" (cooked q)) quasis).

(** The condition of lines 124-128 together with the value of line 129. *)
Definition matchDeclarator (varName : string) (d : declarator) : option string :=
  match d with
  | VariableDeclarator (Identifier name) (Some (TemplateLiteral quasis _)) =>
      if decide (name = varName) then Some (cookedText quasis) else None
  | _ => None
  end.

(** The loop of lines 123-131 on one declaration. *)
Definition scanDeclarations (varName : string)
    (foundCode : option string) (ds : list declarator) : option string :=
  fold_left (λ found d, match matchDeclarator varName d with
                        | Some c => Some c
                        | None => found
                        end) ds foundCode.

Definition visitVariableDeclaration (varName : string)
    (foundCode : option string) (n : node) : option string :=
  match n with
  | VariableDeclaration _ ds => scanDeclarations varName foundCode ds
  | _ => foundCode
  end.

Definition findCode (sourceAST : node) (varName : string) : option string :=
  simple sourceAST (visitVariableDeclaration varName) None.

(** [if (!foundCode) throw ...]: [null] and the empty string are both falsy. *)
Definition extractSnippet (absolutePath : string) (sourceAST : node)
    (varName : string) : result string :=
  match findCode sourceAST varName with
  | None => inl (ExportNotFound absolutePath varName)
  | Some c => if decide (c = "") then inl (ExportNotFound absolutePath varName)
              else inr c
  end.

(** ** Node's [path.resolve] (POSIX) *)

Module Path.

Definition isAbsolute (p : string) : bool := String.prefix "/" p.

(** [normalizeString], segment by segment: [res] holds the segments kept so
    far, the last one first.  An empty segment and [.] are dropped; [..]
    removes the last kept segment, and is kept itself only where the path
    may climb above its start. *)
Fixpoint normalizeSegments (allowAboveRoot : bool) (res segs : list string)
    : list string :=
  match segs with
  | [] => rev res
  | seg :: segs' =>
      if decide (seg = "") then normalizeSegments allowAboveRoot res segs'
      else if decide (seg = ".") then normalizeSegments allowAboveRoot res segs'
      else if decide (seg = "..") then
        match res with
        | top :: res' =>
            if decide (top = "..")
            then normalizeSegments allowAboveRoot
                   (if allowAboveRoot then ".." :: res else res) segs'
            else normalizeSegments allowAboveRoot res' segs'
        | [] =>
            normalizeSegments allowAboveRoot
              (if allowAboveRoot then [".."] else []) segs'
        end
      else normalizeSegments allowAboveRoot (seg :: res) segs'
  end.

Definition normalizeString (path : string) (allowAboveRoot : bool) : string :=
  Js.join "/" (normalizeSegments allowAboveRoot [] (Js.split_slash path)).

(** The loop of [resolve]: the arguments from the last to the first, then
    the working directory, until an absolute one has been prepended. *)
Fixpoint resolveLoop (paths : list string) (resolvedPath : string)
    : string * bool :=
  match paths with
  | [] => (resolvedPath, false)
  | path :: paths' =>
      if decide (path = "") then resolveLoop paths' resolvedPath
      else if isAbsolute path then (path +:+ "/" +:+ resolvedPath, true)
      else resolveLoop paths' (path +:+ "/" +:+ resolvedPath)
  end.

Definition resolve (cwd : string) (args : list string) : string :=
  let '(resolvedPath, resolvedAbsolute) := resolveLoop (rev args ++ [cwd]) "" in
  let normalized := normalizeString resolvedPath (negb resolvedAbsolute) in
  if resolvedAbsolute then "/" +:+ normalized
  else if decide (normalized = "") then "." else normalized.

End Path.

(** ** Collaborators and options *)

Record Env : Type := {
  cwd : string;                                  (* process.cwd() *)
  cwd_absolute : Path.isAbsolute cwd = true;     (* it is an absolute path *)
  existsSync : string → bool;                    (* fs.existsSync *)
  readFileSync : string → string + string;       (* inl: the call throws *)
  acornParse : string → string + node;           (* inl: the call throws *)
  prettierFormat :
    string → list (string * string) → string + string; (* inl: it throws *)
  typeErrorMessage : misuse → string             (* the runtime's wording *)
}.

(** A JavaScript object with string keys: its own properties in the order
    in which they were created. *)
Abbreviation object V := (list (string * V)).

Module Object.

(** [o[k] = v] *)
Fixpoint set {V : Type} (o : object V) (k : string) (v : V) : object V :=
  match o with
  | [] => [(k, v)]
  | (k', v') :: o' =>
      if decide (k' = k) then (k, v) :: o' else (k', v') :: set o' k v
  end.

Definition isDigit (c : ascii) : bool :=
  (48 <=? nat_of_ascii c) && (nat_of_ascii c <=? 57).

Fixpoint digitsValue (acc : N) (s : string) : N :=
  match s with
  | EmptyString => acc
  | String c s' => digitsValue (10 * acc + N.of_nat (nat_of_ascii c - 48)) s'
  end.

(** The array index a property key stands for, if any: a decimal numeral
    without a leading zero and not above 2^32 - 2. *)
Definition arrayIndex (k : string) : option N :=
  match k with
  | EmptyString => None
  | String c rest =>
      if allChars isDigit k &&
         (bool_decide (c ≠ "0"%char) || bool_decide (rest = ""))
      then let n := digitsValue 0 k in
           if (n <=? 4294967294)%N then Some n else None
      else None
  end.

Fixpoint insertIndexed {V : Type} (n : N) (kv : string * V)
    (l : list (N * (string * V))) : list (N * (string * V)) :=
  match l with
  | [] => [(n, kv)]
  | (m, kv') :: l' =>
      if (n <? m)%N then (n, kv) :: l else (m, kv') :: insertIndexed n kv l'
  end.

(** [Object.entries(o)]: the properties whose key is an array index come
    first, in ascending order of the index, the others follow in the order
    of their creation. *)
Definition entries {V : Type} (o : object V) : list (string * V) :=
  map snd (fold_right (λ kv acc, match arrayIndex kv.1 with
                                 | Some n => insertIndexed n kv acc
                                 | None => acc
                                 end) [] o) ++
  filter (λ kv, arrayIndex kv.1 = None) o.

(** [{ ...a, ...b }]: the properties of [a], then those of [b], each object
    read in the order of its entries. *)
Definition spread {V : Type} (a b : object V) : object V :=
  fold_left (λ o kv, set o kv.1 kv.2) (entries a ++ entries b) [].

End Object.

Record RemarkCodeSnippetsOptions : Type := {
  aliases : option (object string);
  extensions : option (list string);
  prettierOptions : option (object string)
}.

Definition defaultOptions (env : Env) : RemarkCodeSnippetsOptions := {|
  aliases := Some [("@code", Path.resolve (cwd env) [cwd env; "src/code-snippets"])];
  extensions := Some [".ts"; ".tsx"; ".js"; ".jsx";
                      "/index.ts"; "/index.tsx"; "/index.js"; "/index.jsx"];
  prettierOptions := Some [("printWidth", "80"); ("tabWidth", "2");
                           ("useTabs", "false"); ("semi", "true");
                           ("singleQuote", "true"); ("trailingComma", "es5");
                           ("bracketSpacing", "true"); ("arrowParens", "avoid")]
|}.

(** Lines 34-38. *)
Definition mergedOptions (env : Env) (options : RemarkCodeSnippetsOptions)
    : RemarkCodeSnippetsOptions := {|
  aliases := Some (Object.spread (default [] (aliases (defaultOptions env)))
                                 (default [] (aliases options)));
  extensions := Some (default [] (extensions (defaultOptions env)) ++
                      default [] (extensions options));
  prettierOptions := Some (Object.spread (default [] (prettierOptions (defaultOptions env)))
                                         (default [] (prettierOptions options)))
|}.

(** ** Module path resolver (lines 80-110) *)

(** Lines 85-90: the loop over [Object.entries(aliases)], left at the first
    alias whose prefix fits. *)
Fixpoint scanAliases (env : Env) (sourcePath : string)
    (entries : list (string * string)) (basePath : string) : string :=
  match entries with
  | [] => basePath
  | (alias, aliasPath) :: entries' =>
      if Js.startsWith sourcePath (alias +:+ "/")
      then Path.resolve (cwd env)
             [aliasPath; Js.replace sourcePath (alias +:+ "/") ""]
      else scanAliases env sourcePath entries' basePath
  end.

(** Lines 82-95. *)
Definition resolveBasePath (env : Env) (opts : RemarkCodeSnippetsOptions)
    (dirname sourcePath : string) : string :=
  let basePath :=
    scanAliases env sourcePath
      (Object.entries (default [] (aliases opts))) sourcePath in
  if decide (basePath = sourcePath)
  then Path.resolve (cwd env) [dirname; sourcePath]
  else basePath.

(** Lines 100-103. *)
Fixpoint probe (env : Env) (basePath : string) (tryExtensions : list string)
    : option string :=
  match tryExtensions with
  | [] => None
  | ext :: rest =>
      let fullPath := basePath +:+ ext in
      if existsSync env fullPath then Some fullPath else probe env basePath rest
  end.

Definition resolveModulePath (env : Env) (opts : RemarkCodeSnippetsOptions)
    (dirname sourcePath : string) : result string :=
  let basePath := resolveBasePath env opts dirname sourcePath in
  let tryExtensions := default [] (extensions opts) in
  match probe env basePath tryExtensions with
  | Some fullPath => inr fullPath
  | None => inl (PathNotResolved sourcePath basePath tryExtensions)
  end.

(** ** Messages *)

Definition nl : string := String "010"%char "".
Definition dquote : string := String "034"%char "".

(** [error.message] *)
Definition message (e : error) : string :=
  match e with
  | SyntaxError msg => msg
  | ReadError msg => msg
  | TypeError msg => msg
  | ImportNotFound varName =>
      "❌ 未找到变量 " +:+ dquote +:+ varName +:+ dquote +:+ " 的 import 路径。" +:+ nl +:+
      "请确认你在 .mdx 文件中正确引入了该变量，例如：" +:+ nl +:+ nl +:+
      "import {" +:+ varName +:+ "} from 'codeSnippetsPath'" +:+ nl +:+ nl +:+
      "如果你使用 export default 导出，请修改为 export。"
  | PathNotResolved sourcePath basePath tryExtensions =>
      "❌ 无法解析路径 " +:+ dquote +:+ sourcePath +:+ dquote +:+
      "，已尝试以下路径但均未找到：" +:+ nl +:+
      Js.join nl (map (λ ext, "- " +:+ (basePath +:+ ext)) tryExtensions) +:+
      nl +:+ "如果你修改了文件名或文件路径，请重新启动项目。"
  | ExportNotFound absolutePath varName =>
      "在 " +:+ absolutePath +:+ " 中未找到 export const " +:+ varName
  end.

(** ** White space, [trim] and the two regular expressions *)

Module Re.

Definition bytes (l : list nat) : string :=
  fold_right (λ n s, String (ascii_of_nat n) s) "" l.

(** WhiteSpace and LineTerminator of ECMAScript, in UTF-8: what [\s] matches
    and what [trim] removes. *)
Definition whiteSpace : list string :=
  map bytes
    [ [9]; [10]; [11]; [12]; [13]; [32]; [194; 160]; [225; 154; 128];
      [226; 128; 128]; [226; 128; 129]; [226; 128; 130]; [226; 128; 131];
      [226; 128; 132]; [226; 128; 133]; [226; 128; 134]; [226; 128; 135];
      [226; 128; 136]; [226; 128; 137]; [226; 128; 138];
      [226; 128; 168]; [226; 128; 169]; [226; 128; 175]; [226; 129; 159];
      [227; 128; 128]; [239; 187; 191] ].

Fixpoint dropLeading (ws : list string) (fuel : nat) (s : string) : string :=
  match fuel with
  | O => s
  | S fuel' =>
      match find (λ w, String.prefix w s) ws with
      | Some w => dropLeading ws fuel' (Js.slice (String.length w) s)
      | None => s
      end
  end.

Definition trimStart (s : string) : string :=
  dropLeading whiteSpace (String.length s) s.

Definition trimEnd (s : string) : string :=
  String.rev (dropLeading (map String.rev whiteSpace) (String.length s)
                          (String.rev s)).

(** [s.trim()] *)
Definition trim (s : string) : string := trimEnd (trimStart s).

(** The longest prefix of [s] whose characters satisfy [f], and the rest. *)
Fixpoint span (f : ascii → bool) (s : string) : string * string :=
  match s with
  | EmptyString => ("", "")
  | String c s' =>
      if f c then let '(a, b) := span f s' in (String c a, b)
      else ("", s)
  end.

Definition between (lo hi : nat) (c : ascii) : bool :=
  (lo <=? nat_of_ascii c) && (nat_of_ascii c <=? hi).

(** [[a-zA-Z0-9_]] *)
Definition isIdentifierChar (c : ascii) : bool :=
  between 97 122 c || between 65 90 c || between 48 57 c
  || bool_decide (c = "_"%char).

(** [/code=\{([a-zA-Z0-9_]+)\}/] tried at the start of [s]: the capture.
    After the longest run of identifier characters comes a character that
    is none, so no shorter run can be followed by the brace. *)
Definition markerHere (s : string) : option string :=
  if String.prefix "code={" s then
    let '(ident, rest) := span isIdentifierChar (Js.slice 6 s) in
    if bool_decide (ident ≠ "") && String.prefix "}" rest
    then Some ident else None
  else None.

(** [s.match(/code=\{([a-zA-Z0-9_]+)\}/)]: group 1 of the leftmost match. *)
Fixpoint matchMarker (s : string) : option string :=
  match markerHere s with
  | Some v => Some v
  | None => match s with
            | EmptyString => None
            | String _ s' => matchMarker s'
            end
  end.

(** [/code=\{[^}]+\}\s*/] tried at the start of [s]: what follows the match. *)
Definition stripHere (s : string) : option string :=
  if String.prefix "code={" s then
    let '(body, rest) :=
      span (λ c, bool_decide (c ≠ "}"%char)) (Js.slice 6 s) in
    match body, rest with
    | String _ _, String _ rest' => Some (trimStart rest')
    | _, _ => None
    end
  else None.

(** [s.replace(/code=\{[^}]+\}\s*/, '')] *)
Fixpoint stripMarker (s : string) : string :=
  match stripHere s with
  | Some rest => rest
  | None => match s with
            | EmptyString => ""
            | String c s' => String c (stripMarker s')
            end
  end.

(** [s.toLowerCase()], as far as a comparison with the ASCII tags below can
    tell: the ASCII capitals, and KELVIN SIGN (U+212A), whose lower case is
    [k]. *)
Fixpoint toLowerCase (s : string) : string :=
  match s with
  | EmptyString => ""
  | String c s' =>
      if String.prefix (bytes [226; 132; 170]) s
      then String "k"%char (toLowerCase_tail s')
      else if between 65 90 c
           then String (ascii_of_nat (nat_of_ascii c + 32)) (toLowerCase s')
           else String c (toLowerCase s')
  end
with toLowerCase_tail (s : string) : string :=
  match s with
  | String _ (String _ s') => toLowerCase s'
  | _ => ""
  end.

End Re.

(** ** Formatter dispatch (lines 175-211) *)

Definition isOneOf (s : string) (l : list string) : bool :=
  existsb (String.eqb s) l.

Definition getParserForLang (lang : option string) : string :=
  match lang with
  | None => "babel"
  | Some lang =>
      if decide (lang = "") then "babel"
      else
        let l := Re.toLowerCase lang in
        if isOneOf l ["js"; "jsx"; "javascript"] then "babel"
        else if isOneOf l ["ts"; "tsx"; "typescript"] then "typescript"
        else if isOneOf l ["css"] then "css"
        else if isOneOf l ["scss"; "sass"] then "scss"
        else if isOneOf l ["html"; "xml"; "svg"] then "html"
        else if isOneOf l ["json"] then "json"
        else if isOneOf l ["md"; "markdown"] then "markdown"
        else if isOneOf l ["yaml"; "yml"] then "yaml"
        else if isOneOf l ["graphql"; "gql"] then "graphql"
        else "babel"
  end.

(** ** The document *)

(** The nodes of the mdast tree.  [visit] hands the visitor the nodes of the
    wanted type one after the other, parents before children and siblings
    from left to right; the visitors below change fields of the node they
    are given and never the shape of the tree.  A document is therefore
    kept as the sequence of its nodes in that order, and a node handle is a
    position in it. *)
Inductive mdast : Type :=
| Code (lang meta : option string) (value : string)
| MdxjsEsm (value : string)
| OtherMd (type : string).

Abbreviation Root := (list mdast).

(** ** Import index builder (lines 41-58) *)

(** The index of line 41 is a plain object: the map below holds its own
    properties, and it inherits the members of [Object.prototype], whose
    names are these. *)
Definition inheritedNames : list string :=
  [ "constructor"; "hasOwnProperty"; "isPrototypeOf"; "propertyIsEnumerable";
    "toLocaleString"; "toString"; "valueOf"; "__proto__";
    "__defineGetter__"; "__defineSetter__"; "__lookupGetter__"; "__lookupSetter__" ].

Definition ownName (k : string) : bool := negb (isOneOf k inheritedNames).

(** [importMap[name] = source] (line 53): an own property is made or
    overwritten, except under the name [__proto__], where the assignment
    goes to the setter of [Object.prototype], which ignores a value that is
    no object. *)
Definition assignImport (importMap : gmap string string)
    (name source : string) : gmap string string :=
  if decide (name = "__proto__") then importMap
  else <[name := source]> importMap.

Definition visitImportDeclaration (importMap : gmap string string) (n : node)
    : gmap string string :=
  match n with
  | ImportDeclaration specifiers source =>
      fold_left (λ m specifier,
                   match specifier with
                   | ImportSpecifier _ local => assignImport m local source
                   | _ => m
                   end) specifiers importMap
  | _ => importMap
  end.

Definition visitEsm (env : Env) (importMap : gmap string string)
    (value : string) : result (gmap string string) :=
  match acornParse env value with
  | inl msg => inl (SyntaxError msg)
  | inr ast => inr (simple ast visitImportDeclaration importMap)
  end.

Fixpoint collectImports (env : Env) (tree : Root)
    (importMap : gmap string string) : result (gmap string string) :=
  match tree with
  | [] => inr importMap
  | MdxjsEsm value :: tree' =>
      try! importMap' := visitEsm env importMap value in
      collectImports env tree' importMap'
  | _ :: tree' => collectImports env tree' importMap
  end.

(** ** Block substitution (lines 60-170) *)

(** Lines 63-66: the identifier a code block refers to, if any. *)
Definition referenceOf (meta : option string) : option string :=
  match meta with
  | None => None
  | Some m =>
      if decide (m = "") then None
      else if negb (Js.includes m "code={") then None
      else Re.matchMarker m
  end.

(** What [importMap[varName]] (line 69) may be, [undefined] apart: the
    specifier an import node has entered, or the member of
    [Object.prototype] of that name, which the index inherits where it has
    no entry of its own. *)
Inductive member : Type :=
| Specifier (importPath : string)
| Inherited (name : string).

Definition getImport (importMap : gmap string string) (varName : string)
    : option member :=
  match importMap !! varName with
  | Some importPath => Some (Specifier importPath)
  | None =>
      if isOneOf varName inheritedNames then Some (Inherited varName)
      else None
  end.

(** Lines 69-78: [undefined] and the empty string are falsy, an inherited
    member (a function, or [Object.prototype] itself) is not. *)
Definition lookupImport (importMap : gmap string string) (varName : string)
    : result member :=
  match getImport importMap varName with
  | Some (Specifier importPath) =>
      if decide (importPath = "") then inl (ImportNotFound varName)
      else inr (Specifier importPath)
  | Some (Inherited name) => inr (Inherited name)
  | None => inl (ImportNotFound varName)
  end.

(** Line 112: [resolveModulePath(importPath)].  The parameter is a string
    by its type only.  Given an inherited member, the loop of line 85 calls
    [startsWith] on it at the first alias, and it has no such function;
    with an empty alias table line 94 hands it to [path.resolve], which
    refuses a path that is no string.  Either way the runtime throws a
    [TypeError]. *)
Definition resolveImported (env : Env) (opts : RemarkCodeSnippetsOptions)
    (dirname : string) (importPath : member) : result string :=
  match importPath with
  | Specifier sourcePath => resolveModulePath env opts dirname sourcePath
  | Inherited name =>
      match Object.entries (default [] (aliases opts)) with
      | _ :: _ => inl (TypeError (typeErrorMessage env (NotAFunction name)))
      | [] => inl (TypeError (typeErrorMessage env (NotAPath name)))
      end
  end.

(** Lines 112-140: from the identifier to the text of the snippet. *)
Definition snippetOf (env : Env) (opts : RemarkCodeSnippetsOptions)
    (dirname : string) (importMap : gmap string string) (varName : string)
    : result string :=
  try! importPath := lookupImport importMap varName in
  try! absolutePath := resolveImported env opts dirname importPath in
  try! sourceCode := match readFileSync env absolutePath with
                     | inl msg => inl (ReadError msg)
                     | inr text => inr text
                     end in
  try! sourceAST := match acornParse env sourceCode with
                    | inl msg => inl (SyntaxError msg)
                    | inr ast => inr ast
                    end in
  extractSnippet absolutePath sourceAST varName.

(** A formatting task (lines 147-160) once [prettier.format] has been
    called: the block it writes to, what the call will yield, and the text
    kept for the [catch] branch. *)
Record task : Type := Task {
  target : nat;
  outcome : string + string;
  fallback : string
}.

Record state : Type := State {
  tree : Root;
  promises : list task
}.

(** Lines 151-155. *)
Definition formatCall (env : Env) (opts : RemarkCodeSnippetsOptions)
    (lang : option string) (codeContent : string) : string + string :=
  let parser := getParserForLang lang in
  let options :=
    Object.set (default [] (prettierOptions opts)) "parser" parser in
  prettierFormat env (Re.trim codeContent) options.

(** [node.meta.replace(/code=\{[^}]+\}\s*/, '').trim()] *)
Definition strippedMeta (m : string) : string := Re.trim (Re.stripMarker m).

Definition isFalsy (s : option string) : bool :=
  match s with
  | None => true
  | Some s => bool_decide (s = "")
  end.

(** The visitor of lines 62-167 on the code block at position [i]. *)
Definition visitCode (env : Env) (opts : RemarkCodeSnippetsOptions)
    (dirname : string) (importMap : gmap string string)
    (i : nat) (lang meta : option string) (value : string) (st : state)
    : result state :=
  match referenceOf meta with
  | None => inr st
  | Some varName =>
      try! codeContent := snippetOf env opts dirname importMap varName in
      let meta' := strippedMeta <$> meta in
      if isFalsy lang
      then inr (State (<[i := Code lang meta' (Re.trim codeContent)]> (tree st))
                      (promises st))
      else inr (State (<[i := Code lang meta' value]> (tree st))
                      (promises st ++
                       [Task i (formatCall env opts lang codeContent)
                               (Re.trim codeContent)]))
  end.

Definition visitNode (env : Env) (opts : RemarkCodeSnippetsOptions)
    (dirname : string) (importMap : gmap string string)
    (st : state) (i : nat) : result state :=
  match tree st !! i with
  | Some (Code lang meta value) =>
      visitCode env opts dirname importMap i lang meta value st
  | _ => inr st
  end.

(** [visit(tree, 'code', ...)]: the positions in order; a [throw] leaves the
    loop with the document as the earlier visits left it. *)
Fixpoint visitCodes (env : Env) (opts : RemarkCodeSnippetsOptions)
    (dirname : string) (importMap : gmap string string)
    (positions : list nat) (st : state) : state * option error :=
  match positions with
  | [] => (st, None)
  | i :: rest =>
      match visitNode env opts dirname importMap st i with
      | inl e => (st, Some e)
      | inr st' => visitCodes env opts dirname importMap rest st'
      end
  end.

Definition setValue (v : string) (n : mdast) : mdast :=
  match n with
  | Code lang meta _ => Code lang meta v
  | _ => n
  end.

(** [console.warn] of line 157. *)
Definition formatWarning (msg : string) : string :=
  "格式化代码失败: " +:+ msg +:+ ". 使用原始代码.".

(** The end of a formatting task: lines 155 and 156-159. *)
Definition settle (acc : Root * list string) (t : task) : Root * list string :=
  match outcome t with
  | inr formatted => (alter (setValue formatted) (target t) acc.1, acc.2)
  | inl msg => (alter (setValue (fallback t)) (target t) acc.1,
                acc.2 ++ [formatWarning msg])
  end.

(** What a run leaves behind: the document, the warnings printed, and
    whether the promise of the transformer is fulfilled or rejected.  When a
    visitor throws, the formatting tasks started before are not awaited:
    the document is given as the visits left it. *)
Record run : Type := Run {
  document : Root;
  warnings : list string;
  completion : result unit
}.

(** Lines 40-171. *)
Definition transformer (env : Env) (opts : RemarkCodeSnippetsOptions)
    (dirname : string) (doc : Root) : run :=
  match collectImports env doc ∅ with
  | inl e => Run doc [] (inl e)
  | inr importMap =>
      match visitCodes env opts dirname importMap
              (seq 0 (length doc)) (State doc []) with
      | (st, Some e) => Run (tree st) [] (inl e)
      | (st, None) =>
          let '(doc', warns) := fold_left settle (promises st) (tree st, []) in
          Run doc' warns (inr ())
      end
  end.

(** Lines 33-40: the plugin applied to the caller's options. *)
Definition remarkCodeSnippets (env : Env) (options : RemarkCodeSnippetsOptions)
    : string → Root → run :=
  transformer env (mergedOptions env options).

(** ** Notions used to state the properties *)

Definition declarationsOf (n : node) : list declarator :=
  match n with
  | VariableDeclaration _ ds => ds
  | _ => []
  end.

(** The declarators of a module in the order in which the visitor of
    lines 122-132 meets them: a declaration nested in a function, a block or
    an initializer comes before the declaration that encloses it. *)
Definition visitedDeclarators (ast : node) : list declarator :=
  flat_map declarationsOf (postorder ast).

(** The texts of the declarators that fit the identifier, in that order. *)
Definition matchingTexts (ast : node) (varName : string) : list string :=
  omap (matchDeclarator varName) (visitedDeclarators ast).

(** Following the specification (4.3): the declarators of the top-level
    variable declaration statements only, exported or not, in source order,
    the last one that fits winning. *)
Definition topLevelDeclarators (ast : node) : list declarator :=
  match ast with
  | Program body =>
      flat_map (λ s, match s with
                     | VariableDeclaration _ ds => ds
                     | ExportNamedDeclaration (Some (VariableDeclaration _ ds)) => ds
                     | _ => []
                     end) body
  | _ => []
  end.

Definition lastTopLevelMatch (ast : node) (varName : string) : option string :=
  last (omap (matchDeclarator varName) (topLevelDeclarators ast)).

(** A segment [path.resolve] keeps as it is. *)
Fixpoint noSlash (s : string) : bool :=
  match s with
  | EmptyString => true
  | String c s' => bool_decide (c ≠ "/"%char) && noSlash s'
  end.

Definition plain (seg : string) : Prop :=
  seg ≠ "" ∧ seg ≠ "." ∧ seg ≠ ".." ∧ noSlash seg = true.

(** Following the specification (4.2, step 1): the first alias that fits,
    the aliases taken in the order in which the table declares them. *)
Definition firstDeclaredAlias (table : object string) (specifier : string)
    : option (string * string) :=
  find (λ kv, Js.startsWith specifier (kv.1 +:+ "/")) table.

(** The file path of a resolution, if it did not throw. *)
Definition resolved (r : result string) : option string :=
  match r with
  | inr fullPath => Some fullPath
  | inl _ => None
  end.

(** [x] is a part of the text [s]. *)
Definition occursIn (x s : string) : Prop := ∃ pre post, s = pre +:+ x +:+ post.

(** Following the specification (4.4, 6): the metadata holds a reference
    marker, [code={identifier}] with an identifier of letters, digits and
    underscores. *)
Definition carriesMarker (meta : option string) : Prop :=
  ∃ m pre ident post,
    meta = Some m ∧
    m = pre +:+ "code={" +:+ ident +:+ "}" +:+ post ∧
    ident ≠ "" ∧ allChars Re.isIdentifierChar ident = true.

Definition noMarker (doc : Root) : Prop :=
  ∀ i lang meta value,
    doc !! i = Some (Code lang meta value) → ¬ carriesMarker meta.

(** The failures of a code block with a reference, other than a formatting
    failure: the missing import, the unresolved path (or the inherited
    member taken for a path), the unreadable or malformed module and the
    missing declaration. *)
Inductive fatalFailure (env : Env) (opts : RemarkCodeSnippetsOptions)
    (dirname : string) (importMap : gmap string string)
    : mdast → error → Prop :=
| UnresolvedReference lang meta value varName e :
    referenceOf meta = Some varName →
    lookupImport importMap varName = inl e →
    fatalFailure env opts dirname importMap (Code lang meta value) e
| ResolutionFailure lang meta value varName importPath e :
    referenceOf meta = Some varName →
    lookupImport importMap varName = inr importPath →
    resolveImported env opts dirname importPath = inl e →
    fatalFailure env opts dirname importMap (Code lang meta value) e
| UnreadableModule lang meta value varName importPath absolutePath msg :
    referenceOf meta = Some varName →
    lookupImport importMap varName = inr importPath →
    resolveImported env opts dirname importPath = inr absolutePath →
    readFileSync env absolutePath = inl msg →
    fatalFailure env opts dirname importMap (Code lang meta value) (ReadError msg)
| MalformedModule lang meta value varName importPath absolutePath sourceCode msg :
    referenceOf meta = Some varName →
    lookupImport importMap varName = inr importPath →
    resolveImported env opts dirname importPath = inr absolutePath →
    readFileSync env absolutePath = inr sourceCode →
    acornParse env sourceCode = inl msg →
    fatalFailure env opts dirname importMap (Code lang meta value) (SyntaxError msg)
| ExtractionFailure lang meta value varName importPath absolutePath sourceCode ast e :
    referenceOf meta = Some varName →
    lookupImport importMap varName = inr importPath →
    resolveImported env opts dirname importPath = inr absolutePath →
    readFileSync env absolutePath = inr sourceCode →
    acornParse env sourceCode = inr ast →
    extractSnippet absolutePath ast varName = inl e →
    fatalFailure env opts dirname importMap (Code lang meta value) e.

(** What the visitor makes of the node at position [i]: the node as it
    leaves it and the formatting task it starts, or the error it throws. *)
Definition visited (env : Env) (opts : RemarkCodeSnippetsOptions)
    (dirname : string) (importMap : gmap string string)
    (i : nat) (n : mdast) : result (mdast * list task) :=
  match n with
  | Code lang meta value =>
      match referenceOf meta with
      | None => inr (n, [])
      | Some varName =>
          try! codeContent := snippetOf env opts dirname importMap varName in
          if isFalsy lang
          then inr (Code lang (strippedMeta <$> meta) (Re.trim codeContent), [])
          else inr (Code lang (strippedMeta <$> meta) value,
                    [Task i (formatCall env opts lang codeContent)
                            (Re.trim codeContent)])
      end
  | _ => inr (n, [])
  end.

(** The visits of the nodes from position [i] on: the nodes as they are
    left, the tasks started, and the error that ended the visits if any. *)
Fixpoint passFrom (env : Env) (opts : RemarkCodeSnippetsOptions)
    (dirname : string) (importMap : gmap string string)
    (i : nat) (nodes : Root) : Root * list task * option error :=
  match nodes with
  | [] => ([], [], None)
  | n :: rest =>
      match visited env opts dirname importMap i n with
      | inl e => (n :: rest, [], Some e)
      | inr (n', ts) =>
          let '(rest', ts', r) :=
            passFrom env opts dirname importMap (S i) rest in
          (n' :: rest', ts ++ ts', r)
      end
  end.

(** A node once its task, if it started one, has come to its end. *)
Definition settled (n : mdast) (ts : list task) : mdast :=
  match ts with
  | t :: _ => match outcome t with
              | inr formatted => setValue formatted n
              | inl _ => setValue (fallback t) n
              end
  | [] => n
  end.

Definition finalNode (env : Env) (opts : RemarkCodeSnippetsOptions)
    (dirname : string) (importMap : gmap string string)
    (i : nat) (n : mdast) : mdast :=
  match visited env opts dirname importMap i n with
  | inr (n', ts) => settled n' ts
  | inl _ => n
  end.

Fixpoint finalFrom (env : Env) (opts : RemarkCodeSnippetsOptions)
    (dirname : string) (importMap : gmap string string)
    (i : nat) (nodes : Root) : Root :=
  match nodes with
  | [] => []
  | n :: rest =>
      finalNode env opts dirname importMap i n ::
      finalFrom env opts dirname importMap (S i) rest
  end.

Definition warningOf (t : task) : option string :=
  match outcome t with
  | inl msg => Some (formatWarning msg)
  | inr _ => None
  end.

(** No variable declaration occurs in [n]. *)
Fixpoint declarationFree (n : node) : bool :=
  match n with
  | Program body => forallb declarationFree body
  | ImportDeclaration _ _ => true
  | ExportNamedDeclaration d =>
      match d with Some d => declarationFree d | None => true end
  | VariableDeclaration _ _ => false
  | TemplateLiteral _ es => forallb declarationFree es
  | Identifier _ => true
  | OtherNode _ cs => forallb declarationFree cs
  end.

Definition flatDeclarator (d : declarator) : bool :=
  match d with
  | VariableDeclarator i e =>
      declarationFree i && match e with Some e => declarationFree e | None => true end
  end.

(** A statement of a module all of whose variable declarations are
    top-level statements. *)
Definition flatStatement (s : node) : bool :=
  match s with
  | VariableDeclaration _ ds => forallb flatDeclarator ds
  | ExportNamedDeclaration (Some (VariableDeclaration _ ds)) =>
      forallb flatDeclarator ds
  | _ => declarationFree s
  end.

(** ** Concrete modules *)

Definition quasi (s : string) : template_element := TemplateElement (Some s) s.

Definition templateDeclarator (name text : string) : declarator :=
  VariableDeclarator (Identifier name) (Some (TemplateLiteral [quasi text] [])).

(** [export const snippet = `top`;
     function helper() { const snippet = `nested`; }] *)
Definition twoScopes : node :=
  Program
    [ ExportNamedDeclaration
        (Some (VariableDeclaration "const" [templateDeclarator "snippet" "top"]));
      OtherNode "FunctionDeclaration"
        [ Identifier "helper";
          OtherNode "BlockStatement"
            [VariableDeclaration "const" [templateDeclarator "snippet" "nested"]] ] ].

(** [export const snippet = `${name}`;] *)
Definition onlyPlaceholder : node :=
  Program
    [ ExportNamedDeclaration
        (Some (VariableDeclaration "const"
           [VariableDeclarator (Identifier "snippet")
              (Some (TemplateLiteral [quasi ""; quasi ""] [Identifier "name"]))])) ].

(** [const other = 1; const snippet = `const x = 1;`;] and the same module
    with [export] before the second statement. *)
Definition plainModule : node :=
  Program
    ([VariableDeclaration "const"
        [VariableDeclarator (Identifier "other") (Some (OtherNode "Literal" []))]] ++
     VariableDeclaration "const" [templateDeclarator "snippet" "const x = 1;"] :: []).

Definition exportedModule : node :=
  Program
    ([VariableDeclaration "const"
        [VariableDeclarator (Identifier "other") (Some (OtherNode "Literal" []))]] ++
     ExportNamedDeclaration
       (Some (VariableDeclaration "const"
                [templateDeclarator "snippet" "const x = 1;"])) :: []).

(** [function helper() { const snippet = `inner`; }
     export const snippet = `exported`;] *)
Definition shadowedModule : node :=
  Program
    [ OtherNode "FunctionDeclaration"
        [ Identifier "helper";
          OtherNode "BlockStatement"
            [VariableDeclaration "const" [templateDeclarator "snippet" "inner"]] ];
      ExportNamedDeclaration
        (Some (VariableDeclaration "const"
                 [templateDeclarator "snippet" "exported"])) ].

(** [function helper() { const snippet = `inner`; }] *)
Definition nestedOnly : node :=
  Program
    [ OtherNode "FunctionDeclaration"
        [ Identifier "helper";
          OtherNode "BlockStatement"
            [VariableDeclaration "const" [templateDeclarator "snippet" "inner"]] ] ].

(** [const snippet = ``;] *)
Definition emptyTemplate : node :=
  Program [VariableDeclaration "const" [templateDeclarator "snippet" ""]].

(** [var snippet = `first`; var snippet = ``;] *)
Definition emptyRedeclared : node :=
  Program [ VariableDeclaration "var" [templateDeclarator "snippet" "first"];
            VariableDeclaration "var" [templateDeclarator "snippet" ""] ].

(** [var snippet = `outer`, helper = function () { var snippet = `inner`; };] *)
Definition nestedInitializer : node :=
  Program
    [ VariableDeclaration "var"
        [ templateDeclarator "snippet" "outer";
          VariableDeclarator (Identifier "helper")
            (Some (OtherNode "FunctionExpression"
                     [OtherNode "BlockStatement"
                        [VariableDeclaration "var"
                           [templateDeclarator "snippet" "inner"]]])) ] ].

(** ** Concrete machines and documents *)

Definition entry {V : Type} (o : object V) (k : string) : option V :=
  snd <$> find (λ kv, bool_decide (kv.1 = k)) o.

(** A machine whose working directory is [/project]: it holds the given
    files (path and content) and no other, its parser knows the given
    sources, its formatter throws on the given texts and appends a line
    break to any other, and its runtime words its type errors as below. *)
Definition machine (files : object string) (sources : object node)
    (rejected : list string) : Env := {|
  cwd := "/project";
  cwd_absolute := eq_refl;
  existsSync := λ p, bool_decide (is_Some (entry files p));
  readFileSync := λ p, match entry files p with
                       | Some text => inr text
                       | None => inl "ENOENT"
                       end;
  acornParse := λ s, match entry sources s with
                     | Some ast => inr ast
                     | None => inl "Unexpected token"
                     end;
  prettierFormat := λ s _, if bool_decide (s ∈ rejected) then inl "SyntaxError"
                           else inr (s +:+ nl);
  typeErrorMessage := λ what,
    match what with
    | NotAFunction _ => "sourcePath.startsWith is not a function"
    | NotAPath _ => "The path argument must be of type string"
    end
|}.

Definition noOptions : RemarkCodeSnippetsOptions :=
  {| aliases := None; extensions := None; prettierOptions := None |}.

Definition emptyMachine : Env := machine [] [] [].

(** [{ aliases: { '1/a': '/p', '1': '/q' } }] *)
Definition numberedAliases : RemarkCodeSnippetsOptions :=
  {| aliases := Some [("1/a", "/p"); ("1", "/q")];
     extensions := None; prettierOptions := None |}.

(** Both [X.ts] and [X/index.ts] beside the document. *)
Definition twoCandidates : Env :=
  machine [("/project/docs/X.ts", ""); ("/project/docs/X/index.ts", "")] [] [].

(** Only [demo.ts] beside the document. *)
Definition demoBeside : Env := machine [("/project/docs/demo.ts", "")] [] [].




(** [import {snippetA} from '@code/demo'] *)
Definition importSnippetA : node :=
  Program [ImportDeclaration [ImportSpecifier "snippetA" "snippetA"] "@code/demo"].

Definition snippetModule (text : string) : node :=
  Program [ExportNamedDeclaration
             (Some (VariableDeclaration "const" [templateDeclarator "snippetA" text]))].

(** The project of the scenarios of the specification:
    [src/code-snippets/demo.ts] exports [snippetA] with the given text. *)
Definition project (text : string) (rejected : list string) : Env :=
  machine [("/project/src/code-snippets/demo.ts",
            "export const snippetA = `" +:+ text +:+ "`;")]
          [("import {snippetA} from '@code/demo'", importSnippetA);
           ("export const snippetA = `" +:+ text +:+ "`;", snippetModule text)]
          rejected.

(** The same project without [demo.ts]. *)
Definition projectWithoutModule : Env :=
  machine [] [("import {snippetA} from '@code/demo'", importSnippetA)] [].

Definition page : Root :=
  [ MdxjsEsm "import {snippetA} from '@code/demo'";
    OtherMd "paragraph";
    Code (Some "ts") (Some "code={snippetA}") "" ].

(** ** Further notions *)

(** The named import specifiers of one node, each as its local name and the
    source of its declaration (lines 51-55). *)
Definition importBindingsOf (n : node) : list (string * string) :=
  match n with
  | ImportDeclaration specifiers source =>
      omap (λ specifier, match specifier with
                         | ImportSpecifier _ local => Some (local, source)
                         | _ => None
                         end) specifiers
  | _ => []
  end.

(** Those of a module, in the order of the walker. *)
Definition namedImports (ast : node) : list (string * string) :=
  flat_map importBindingsOf (postorder ast).

(** Those of the import nodes of a document that parse, in document order. *)
Fixpoint documentImports (env : Env) (doc : Root) : list (string * string) :=
  match doc with
  | [] => []
  | MdxjsEsm value :: rest =>
      match acornParse env value with
      | inr ast => namedImports ast
      | inl _ => []
      end ++ documentImports env rest
  | _ :: rest => documentImports env rest
  end.

(** The value of the last pair of [l] whose key is [k]. *)
Definition lastBinding {V : Type} (k : string) (l : list (string * V)) : option V :=
  snd <$> last (filter (λ kv, kv.1 = k) l).


(** What a visit and the end of its task may change of a node: of a code
    block its metadata and its value, and these only where the block holds a
    reference; of any other node nothing. *)
Definition sameShape (n n' : mdast) : Prop :=
  match n with
  | Code lang meta value =>
      ∃ meta' value', n' = Code lang meta' value' ∧
        (referenceOf meta = None → meta' = meta ∧ value' = value)
  | _ => n' = n
  end.

(** No opening brace occurs in [s]. *)
Definition braceFree (s : string) : bool :=
  allChars (λ c, bool_decide (c ≠ "{"%char)) s.

(** The lower case of an ASCII character, as [Re.toLowerCase] takes it. *)
Definition lowerChar (c : ascii) : ascii :=
  if Re.between 65 90 c then ascii_of_nat (nat_of_ascii c + 32) else c.

(** ** Further machines and documents *)

(** [import def, {a, b as c} from './m1'], [import * as ns from './m3'] and
    [import {a} from './m2'] *)
Definition mixedImports : object node :=
  [ ("import def, {a, b as c} from './m1'",
     Program [ImportDeclaration
                [ImportDefaultSpecifier "def"; ImportSpecifier "a" "a";
                 ImportSpecifier "b" "c"] "./m1"]);
    ("import * as ns from './m3'",
     Program [ImportDeclaration [ImportNamespaceSpecifier "ns"] "./m3"]);
    ("import {a} from './m2'",
     Program [ImportDeclaration [ImportSpecifier "a" "a"] "./m2"]) ].

Definition mixedImportsPage : Root :=
  [ MdxjsEsm "import def, {a, b as c} from './m1'";
    OtherMd "heading";
    MdxjsEsm "import * as ns from './m3'";
    MdxjsEsm "import {a} from './m2'" ].

(** A page that imports the name [__proto__] and refers to it. *)
Definition protoPage : Root :=
  [ MdxjsEsm "import {__proto__} from './m'";
    Code None (Some "code={__proto__}") "" ].

Definition protoMachine : Env :=
  machine [("/project/docs/m.ts", "export const __proto__ = `x`;")]
          [("import {__proto__} from './m'",
            Program [ImportDeclaration [ImportSpecifier "__proto__" "__proto__"]
                       "./m"]);
           ("export const __proto__ = `x`;",
            Program [ExportNamedDeclaration
                       (Some (VariableDeclaration "const"
                                [templateDeclarator "__proto__" "x"]))])]
          [].

(** A page whose only block refers to [constructor], which nothing
    imports. *)
Definition inheritedPage : Root :=
  [ Code (Some "js") (Some "code={constructor}") "" ].

(** A page that imports [snippetA] as the default export of the module. *)
Definition defaultImportPage : Root :=
  [ MdxjsEsm "import snippetA from '@code/demo'";
    Code None (Some "code={snippetA}") "" ].

Definition defaultImportMachine : Env :=
  machine [("/project/src/code-snippets/demo.ts", "export default `x`;")]
          [("import snippetA from '@code/demo'",
            Program [ImportDeclaration [ImportDefaultSpecifier "snippetA"]
                       "@code/demo"])]
          [].

(** [{ aliases: { '@code': '/lib/snippets', '@docs': '/project/docs' },
       extensions: ['.mdx'] }] *)
Definition callerOptions : RemarkCodeSnippetsOptions :=
  {| aliases := Some [("@code", "/lib/snippets"); ("@docs", "/project/docs")];
     extensions := Some [".mdx"];
     prettierOptions := Some [("semi", "false"); ("parser", "flow")] |}.

(** Both [demo.mdx] and [demo.js] in [/lib/snippets]. *)
Definition libMachine : Env :=
  machine [("/lib/snippets/demo.mdx", ""); ("/lib/snippets/demo.js", "")] [] [].


(** A document whose second code block refers to an identifier no import
    binds. *)
Definition brokenPage : Root :=
  [ MdxjsEsm "import {snippetA} from '@code/demo'";
    Code None (Some "code={snippetA} first") "";
    Code (Some "ts") (Some "code={missing}") "untouched";
    Code None (Some "code={snippetA}") "later" ].

(** * Properties *)

(** ** The export extractor *)

Section Extractor.
Context (varName : string).

Lemma last_app_option {A} (l1 l2 : list A) :
  last (l1 ++ l2) = match last l2 with Some x => Some x | None => last l1 end.
Proof.
  destruct l2 as [|x l2 _] using rev_ind.
  - by rewrite app_nil_r; destruct (last l1).
  - by rewrite app_assoc, !last_snoc.
Qed.

Lemma scanDeclarations_last found ds :
  scanDeclarations varName found ds =
  match last (omap (matchDeclarator varName) ds) with
  | Some c => Some c
  | None => found
  end.
Proof.
  revert found. induction ds as [|d ds IH]; intros found; [reflexivity|].
  unfold scanDeclarations in *. cbn. rewrite IH.
  destruct (matchDeclarator varName d) as [c|]; [|done].
  rewrite last_cons. by destruct (last _).
Qed.

Lemma fold_visit_last found ns :
  fold_left (visitVariableDeclaration varName) ns found =
  match last (omap (matchDeclarator varName) (flat_map declarationsOf ns)) with
  | Some c => Some c
  | None => found
  end.
Proof.
  revert found. induction ns as [|n ns IH]; intros found; [reflexivity|].
  cbn. rewrite IH, omap_app, last_app_option.
  destruct (last (omap _ (flat_map _ ns))); [done|].
  destruct n; try done. cbn. by rewrite scanDeclarations_last.
Qed.

Lemma findCode_last ast : findCode ast varName = last (matchingTexts ast varName).
Proof.
  unfold findCode, simple, matchingTexts, visitedDeclarators.
  rewrite fold_visit_last. by destruct (last _).
Qed.

(** The text the extractor returns is the last of the texts that fit. *)
Lemma extractSnippet_last absolutePath ast code :
  last (matchingTexts ast varName) = Some code →
  code ≠ "" →
  extractSnippet absolutePath ast varName = inr code.
Proof.
  intros Hlast Hne. unfold extractSnippet.
  rewrite findCode_last, Hlast. by destruct (decide (code = "")).
Qed.

Lemma visitedDeclarators_Program body :
  visitedDeclarators (Program body) =
  flat_map declarationsOf (flat_map postorder body).
Proof.
  unfold visitedDeclarators. cbn [postorder].
  rewrite flat_map_app. cbn. by rewrite app_nil_r.
Qed.

Lemma visitedDeclarators_export pre d post :
  visitedDeclarators (Program (pre ++ ExportNamedDeclaration (Some d) :: post)) =
  visitedDeclarators (Program (pre ++ d :: post)).
Proof.
  rewrite !visitedDeclarators_Program, !flat_map_app. cbn [flat_map postorder].
  rewrite !flat_map_app. cbn. by rewrite app_nil_r.
Qed.

End Extractor.

(** C1 (as amended).  The extractor looks at every variable declaration of
    the module, at any depth and not only at the top level, in the order of
    the walker (children first); of the declarators that bind the identifier
    to a template literal the one visited last decides: when its text is not
    empty, that text is returned. *)
Theorem extract_last_visited_match absolutePath ast varName code :
  last (matchingTexts ast varName) = Some code →
  code ≠ "" →
  extractSnippet absolutePath ast varName = inr code.
Proof.
  intros Hlast Hne. unfold extractSnippet.
  rewrite findCode_last, Hlast. by case_decide.
Qed.

Lemma extract_last_visited_match_witness :
  last (matchingTexts twoScopes "snippet") = Some "nested" ∧
  "nested" ≠ "" ∧
  extractSnippet "/src/demo.ts" twoScopes "snippet" = inr "nested".
Proof.
  split; [reflexivity|]. split; [discriminate|].
  apply (extract_last_visited_match "/src/demo.ts" twoScopes "snippet" "nested");
    [reflexivity | discriminate].
Defined.

(** C1, the claim as stated fails: in [twoScopes] the last top-level
    declarator that fits holds [top], and the extractor returns the text of
    the declarator inside the function; in [emptyRedeclared] the last one
    holds the empty text, and the extractor throws. *)
Lemma extract_top_level_counterexample :
  lastTopLevelMatch twoScopes "snippet" = Some "top" ∧
  extractSnippet "/src/demo.ts" twoScopes "snippet" = inr "nested" ∧
  lastTopLevelMatch emptyRedeclared "snippet" = Some "" ∧
  extractSnippet "/src/demo.ts" emptyRedeclared "snippet" =
    inl (ExportNotFound "/src/demo.ts" "snippet").
Proof. repeat split; reflexivity. Qed.

(** The order is that of the walker, not that of the source text: a
    declaration inside an initializer is visited before the declaration it
    belongs to, which overwrites it. *)
Example extract_nested_initializer :
  matchingTexts nestedInitializer "snippet" = ["inner"; "outer"] ∧
  extractSnippet "/src/demo.ts" nestedInitializer "snippet" = inr "outer".
Proof. split; reflexivity. Qed.

Lemma declarationFree_visited :
  ∀ n, declarationFree n = true → flat_map declarationsOf (postorder n) = [].
Proof.
  fix IH 1.
  assert (∀ l, forallb declarationFree l = true →
               flat_map declarationsOf (flat_map postorder l) = []) as IHs.
  { induction l as [|x l IHl]; [done|]. cbn. intros [Hx Hl]%andb_prop.
    rewrite flat_map_app, (IH x Hx), (IHl Hl). done. }
  intros [body| |[d|]| |qs es| |t cs]; cbn; intros H; try done.
  - rewrite flat_map_app, (IHs body H). done.
  - rewrite flat_map_app, (IH d H). done.
  - rewrite flat_map_app, (IHs es H). done.
  - rewrite flat_map_app, (IHs cs H). done.
Qed.

Lemma flatDeclarators_visited kind ds :
  forallb flatDeclarator ds = true →
  flat_map declarationsOf (postorder (VariableDeclaration kind ds)) = ds.
Proof.
  intros H. cbn [postorder]. rewrite flat_map_app. cbn. rewrite app_nil_r.
  replace (flat_map declarationsOf _) with (@nil declarator); [done|].
  symmetry. induction ds as [|[i e] ds IH]; [done|].
  cbn in H. apply andb_prop in H as [[Hi He]%andb_prop Hds].
  cbn. rewrite !flat_map_app, (declarationFree_visited i Hi), (IH Hds).
  destruct e as [e|]; [|done]. by rewrite (declarationFree_visited e He).
Qed.

Lemma flatStatement_visited s :
  flatStatement s = true →
  flat_map declarationsOf (postorder s) =
  match s with
  | VariableDeclaration _ ds => ds
  | ExportNamedDeclaration (Some (VariableDeclaration _ ds)) => ds
  | _ => []
  end.
Proof.
  destruct s as [body| |[d|]|kind ds|qs es| |t cs]; intros H;
    try by apply declarationFree_visited.
  - destruct d as [| | |kind ds| | |]; try by apply declarationFree_visited.
    cbn [postorder]. rewrite flat_map_app. cbn. rewrite app_nil_r.
    by apply flatDeclarators_visited.
  - by apply flatDeclarators_visited.
Qed.

(** When every variable declaration of a module is a top-level statement,
    the visitor meets the declarators of the top-level statements, in
    source order. *)
Lemma visitedDeclarators_top_level body :
  forallb flatStatement body = true →
  visitedDeclarators (Program body) = topLevelDeclarators (Program body).
Proof.
  rewrite visitedDeclarators_Program. cbn [topLevelDeclarators].
  induction body as [|s body IH]; [done|].
  cbn. intros [Hs Hbody]%andb_prop.
  by rewrite flat_map_app, (flatStatement_visited s Hs), (IH Hbody).
Qed.

(** For such a module the extractor returns the text of the last top-level
    declarator that fits, when that text is not empty. *)
Lemma extract_top_level_only absolutePath body varName code :
  forallb flatStatement body = true →
  lastTopLevelMatch (Program body) varName = Some code →
  code ≠ "" →
  extractSnippet absolutePath (Program body) varName = inr code.
Proof.
  intros Hflat Hlast Hne. apply extractSnippet_last; [|done].
  unfold matchingTexts. by rewrite visitedDeclarators_top_level.
Qed.

(** C5, at the failing input: the only literal segments of [`${name}`] are
    two empty ones, their concatenation is the empty string, and the
    extractor throws instead of returning it. *)
Theorem extract_only_placeholder_throws :
  matchingTexts onlyPlaceholder "snippet" = [cookedText [quasi ""; quasi ""]] ∧
  cookedText [quasi ""; quasi ""] = "" ∧
  extractSnippet "/src/demo.ts" onlyPlaceholder "snippet" =
    inl (ExportNotFound "/src/demo.ts" "snippet").
Proof. repeat split; reflexivity. Qed.

(** C9 (as amended).  The [export] keyword plays no part: a module and the
    same module with [export] before one of its declarations give the same
    result, value or failure.  In any module, a declarator [id = `...`]
    found at any place of it, in a declaration that is exported or not, at
    the top level or inside a function or a block, is extracted when no
    declarator visited after it fits the identifier and its text is not
    empty. *)
Theorem extract_ignores_export absolutePath varName pre kind ds post :
  let plain := Program (pre ++ VariableDeclaration kind ds :: post) in
  let exported :=
    Program (pre ++ ExportNamedDeclaration (Some (VariableDeclaration kind ds))
                 :: post) in
  extractSnippet absolutePath plain varName =
    extractSnippet absolutePath exported varName ∧
  ∀ ast ds1 quasis expressions ds2,
    visitedDeclarators ast =
      ds1 ++ VariableDeclarator (Identifier varName)
               (Some (TemplateLiteral quasis expressions)) :: ds2 →
    omap (matchDeclarator varName) ds2 = [] →
    cookedText quasis ≠ "" →
    extractSnippet absolutePath ast varName = inr (cookedText quasis).
Proof.
  intros plain exported. subst plain exported. split.
  - unfold extractSnippet. rewrite !findCode_last. unfold matchingTexts.
    by rewrite visitedDeclarators_export.
  - intros ast ds1 quasis expressions ds2 Hast Hds2 Hne.
    apply extractSnippet_last; [|done].
    unfold matchingTexts. rewrite Hast, omap_app, last_app_option.
    change (omap (matchDeclarator varName) (?d :: ds2)) with
      (match matchDeclarator varName d with
       | Some c => c :: omap (matchDeclarator varName) ds2
       | None => omap (matchDeclarator varName) ds2
       end).
    rewrite Hds2. cbn [matchDeclarator]. by rewrite decide_True.
Qed.

Lemma extract_ignores_export_witness :
  extractSnippet "/src/demo.ts" plainModule "snippet" =
    extractSnippet "/src/demo.ts" exportedModule "snippet" ∧
  extractSnippet "/src/demo.ts" plainModule "snippet" = inr "const x = 1;" ∧
  extractSnippet "/src/demo.ts" nestedOnly "snippet" = inr "inner".
Proof.
  pose proof (extract_ignores_export "/src/demo.ts" "snippet"
    [VariableDeclaration "const"
       [VariableDeclarator (Identifier "other") (Some (OtherNode "Literal" []))]]
    "const" [templateDeclarator "snippet" "const x = 1;"] []) as [Heq Hok].
  split; [exact Heq|]. split.
  - apply (Hok plainModule
             [VariableDeclarator (Identifier "other") (Some (OtherNode "Literal" []))]
             [quasi "const x = 1;"] [] []); [reflexivity.. | discriminate].
  - apply (Hok nestedOnly [] [quasi "inner"] [] []); [reflexivity.. | discriminate].
Defined.

(** C9, the claim as stated fails: [shadowedModule] holds the declarator
    [const snippet = `inner`] without [export], and the extractor returns
    the text of the exported declaration visited after it; the template of
    [emptyTemplate] is not exported either, and is reported as missing. *)
Lemma extract_unexported_counterexample :
  extractSnippet "/src/demo.ts" shadowedModule "snippet" = inr "exported" ∧
  extractSnippet "/src/demo.ts" emptyTemplate "snippet" =
    inl (ExportNotFound "/src/demo.ts" "snippet").
Proof. split; reflexivity. Qed.

(** ** Strings and paths *)

Section Strings.

Lemma sapp_cons c a b : String c a +:+ b = String c (a +:+ b).
Proof. reflexivity. Qed.

Lemma sapp_nil_r s : s +:+ "" = s.
Proof. induction s as [|c s IH]; [done|]. by rewrite sapp_cons, IH. Qed.

Lemma sapp_assoc a b c : (a +:+ b) +:+ c = a +:+ b +:+ c.
Proof. induction a as [|x a IH]; [done|]. by rewrite !sapp_cons, IH. Qed.

Lemma sprefix_cons c p s :
  String.prefix (String c p) (String c s) = String.prefix p s.
Proof. cbn. by destruct (ascii_dec c c). Qed.

Lemma sprefix_app p r : String.prefix p (p +:+ r) = true.
Proof.
  induction p as [|c p IH]; [by destruct r|].
  by rewrite sapp_cons, sprefix_cons.
Qed.

Lemma sprefix_slice p s :
  String.prefix p s = true → s = p +:+ Js.slice (String.length p) s.
Proof.
  revert s. induction p as [|c p IH]; intros s H; [done|].
  destruct s as [|c' s]; [done|]. cbn in H.
  destruct (ascii_dec c c') as [->|]; [|done].
  rewrite sapp_cons. cbn. f_equal. by apply IH.
Qed.

Lemma slice_app p r : Js.slice (String.length p) (p +:+ r) = r.
Proof. induction p as [|c p IH]; [done|]. by rewrite sapp_cons. Qed.

Lemma replace_unfold s p r :
  Js.replace s p r =
  if String.prefix p s then r +:+ Js.slice (String.length p) s
  else match s with
       | EmptyString => EmptyString
       | String c s' => String c (Js.replace s' p r)
       end.
Proof. by destruct s. Qed.

(** Removing a pattern the string starts with leaves what follows it. *)
Lemma replace_prefix p rest : Js.replace (p +:+ rest) p "" = rest.
Proof. by rewrite replace_unfold, sprefix_app, slice_app. Qed.

Lemma startsWith_spec s p :
  Js.startsWith s p = true ↔ ∃ rest, s = p +:+ rest.
Proof.
  unfold Js.startsWith. split.
  - intros H. eexists. by apply sprefix_slice.
  - intros [rest ->]. apply sprefix_app.
Qed.

End Strings.

Section Paths.

Lemma split_nonempty s : Js.split_slash s ≠ [].
Proof.
  destruct s as [|c s]; [done|]. cbn.
  destruct (decide _); [done|]. by destruct (Js.split_slash s).
Qed.

Lemma split_app_slash a t :
  Js.split_slash (a +:+ String "/" t) = Js.split_slash a ++ Js.split_slash t.
Proof.
  induction a as [|c a IH]; [done|].
  rewrite sapp_cons. cbn. destruct (decide (c = "/"%char)).
  - by rewrite IH.
  - rewrite IH. pose proof (split_nonempty a).
    by destruct (Js.split_slash a).
Qed.

Lemma split_noSlash s : noSlash s = true → Js.split_slash s = [s].
Proof.
  induction s as [|c s IH]; [done|]. cbn.
  intros [Hc Hs]%andb_prop. apply bool_decide_eq_true in Hc.
  rewrite decide_False by done. by rewrite IH.
Qed.

Lemma split_Forall_noSlash s : Forall (λ x, noSlash x = true) (Js.split_slash s).
Proof.
  induction s as [|c s IH]; [by repeat constructor|]. cbn.
  destruct (decide (c = "/"%char)); [by constructor|].
  destruct (Js.split_slash s) as [|h t]; [by repeat constructor; cbn; rewrite bool_decide_eq_true_2|].
  inversion_clear IH. constructor; [|done]. cbn.
  by rewrite bool_decide_eq_true_2.
Qed.

Lemma join_cons2 sep x y l :
  Js.join sep (x :: y :: l) = x +:+ sep +:+ Js.join sep (y :: l).
Proof. reflexivity. Qed.

Lemma split_join_slash segs t :
  Forall (λ x, noSlash x = true) segs →
  Js.split_slash (Js.join "/" segs +:+ String "/" t) =
  match segs with [] => [""] | _ => segs end ++ Js.split_slash t.
Proof.
  induction segs as [|x segs IH]; intros H; [done|].
  inversion_clear H as [|?? Hx Hsegs].
  destruct segs as [|y segs].
  - cbn [Js.join]. by rewrite split_app_slash, split_noSlash.
  - rewrite join_cons2, !sapp_assoc.
    change ("/" +:+ ?s) with (String "/" s).
    rewrite split_app_slash, split_noSlash by done.
    rewrite (IH Hsegs). done.
Qed.


Lemma normalizeSegments_app a res l1 l2 :
  Path.normalizeSegments a res (l1 ++ l2) =
  Path.normalizeSegments a (rev (Path.normalizeSegments a res l1)) l2.
Proof.
  revert res. induction l1 as [|seg l1 IH]; intros res.
  - cbn. by rewrite rev_involutive.
  - cbn. repeat case_decide; try destruct res; try case_decide; apply IH.
Qed.

Lemma normalizeSegments_plain a res l :
  Forall plain l → Path.normalizeSegments a res l = rev res ++ l.
Proof.
  revert res. induction l as [|seg l IH]; intros res H.
  - cbn. by rewrite app_nil_r.
  - inversion_clear H as [|?? (H1 & H2 & H3 & _) Hl]. cbn.
    rewrite !decide_False by done. rewrite IH by done.
    cbn. by rewrite <- app_assoc.
Qed.

Lemma normalizeSegments_false_plain res l :
  Forall plain res →
  Forall (λ x, noSlash x = true) l →
  Forall plain (Path.normalizeSegments false res l).
Proof.
  revert res. induction l as [|seg l IH]; intros res Hres Hl.
  - cbn. by apply Forall_rev.
  - inversion_clear Hl as [|?? Hseg Hl']. cbn.
    repeat case_decide; try (by apply IH).
    + destruct res as [|top res']; [by apply IH|].
      inversion_clear Hres. case_decide; apply IH; try done. by constructor.
    + apply IH; [|done]. constructor; [|done]. by repeat split.
Qed.

Lemma resolveLoop_absolute paths cwd acc :
  Path.isAbsolute cwd = true →
  (Path.resolveLoop (paths ++ [cwd]) acc).2 = true.
Proof.
  intros Hcwd. revert acc. induction paths as [|p paths IH]; intros acc; cbn.
  - destruct (decide (cwd = "")) as [->|]; [done|]. by rewrite Hcwd.
  - destruct (decide (p = "")); [apply IH|].
    destruct (Path.isAbsolute p); [done|apply IH].
Qed.

(** With an absolute working directory, [path.resolve] yields a slash
    followed by plain segments separated by slashes. *)
Lemma resolve_shape cwd args :
  Path.isAbsolute cwd = true →
  ∃ segs, Forall plain segs ∧ Path.resolve cwd args = "/" +:+ Js.join "/" segs.
Proof.
  intros Hcwd. unfold Path.resolve.
  pose proof (resolveLoop_absolute (rev args) cwd "" Hcwd) as Habs.
  destruct (Path.resolveLoop _ _) as [resolvedPath resolvedAbsolute].
  cbn in Habs. subst resolvedAbsolute. cbn [negb].
  eexists. split; [|reflexivity].
  apply normalizeSegments_false_plain; [constructor|apply split_Forall_noSlash].
Qed.

Lemma plain_noSlash segs : Forall plain segs → Forall (λ x, noSlash x = true) segs.
Proof. intros H. eapply Forall_impl; [done|]. by intros ? (_ & _ & _ & ?). Qed.

Lemma normalize_rooted segs t :
  Forall plain segs →
  Path.normalizeSegments false []
    (Js.split_slash (("/" +:+ Js.join "/" segs) +:+ "/" +:+ t)) =
  Path.normalizeSegments false (rev segs) (Js.split_slash t).
Proof.
  intros H. rewrite sapp_assoc.
  change ("/" +:+ ?s) with (String "/" s).
  change (Js.split_slash (String "/" ?s)) with ("" :: Js.split_slash s).
  change ("/" +:+ ?s) with (String "/" s).
  rewrite split_join_slash by by apply plain_noSlash.
  cbn [Path.normalizeSegments]. rewrite decide_True by done.
  destruct segs as [|x segs]; [reflexivity|].
  rewrite normalizeSegments_app.
  by rewrite (normalizeSegments_plain _ _ (x :: segs)) by done.
Qed.

Lemma resolveLoop_absolute_head p paths acc :
  Path.isAbsolute p = true →
  Path.resolveLoop (p :: paths) acc = (p +:+ "/" +:+ acc, true).
Proof.
  intros H. cbn. destruct (decide (p = "")) as [->|]; [done|]. by rewrite H.
Qed.

(** A path of that shape is left as it is by a further [path.resolve]. *)
Lemma resolve_fixed cwd dirname segs :
  Forall plain segs →
  Path.resolve cwd [dirname; "/" +:+ Js.join "/" segs] = "/" +:+ Js.join "/" segs.
Proof.
  intros H. unfold Path.resolve. cbn [rev app].
  rewrite resolveLoop_absolute_head by apply sprefix_app.
  unfold Path.normalizeString. cbn [negb].
  rewrite normalize_rooted by done. cbn.
  by rewrite rev_involutive.
Qed.

Lemma resolve_idempotent cwd dirname args :
  Path.isAbsolute cwd = true →
  Path.resolve cwd [dirname; Path.resolve cwd args] = Path.resolve cwd args.
Proof.
  intros Hcwd. destruct (resolve_shape cwd args Hcwd) as (segs & Hsegs & ->).
  by apply resolve_fixed.
Qed.

End Paths.

(** ** The module path resolver *)

Section Resolver.
Context (env : Env).

Lemma scanAliases_first sourcePath entries basePath i alias aliasPath rest :
  entries !! i = Some (alias, aliasPath) →
  sourcePath = alias +:+ "/" +:+ rest →
  (∀ j a p, j < i → entries !! j = Some (a, p) →
            ∀ r, sourcePath ≠ a +:+ "/" +:+ r) →
  scanAliases env sourcePath entries basePath =
  Path.resolve (cwd env) [aliasPath; rest].
Proof.
  revert i. induction entries as [|[a p] entries IH]; intros i Hi Hs Hbefore; [done|].
  cbn [scanAliases]. destruct i as [|i].
  - injection Hi as -> ->.
    assert (Js.startsWith sourcePath (alias +:+ "/") = true) as ->.
    { apply (proj2 (startsWith_spec _ _)). exists rest. by rewrite sapp_assoc. }
    subst sourcePath. by rewrite <- (sapp_assoc alias "/" rest), replace_prefix.
  - destruct (Js.startsWith sourcePath (a +:+ "/")) eqn:Ha.
    + apply (proj1 (startsWith_spec _ _)) in Ha as [r Hr]. exfalso.
      apply (Hbefore 0 a p ltac:(lia) eq_refl r). by rewrite <- sapp_assoc.
    + apply (IH i); [done..|]. intros j a' p' Hj. apply (Hbefore (S j)). lia.
Qed.

Lemma scanAliases_none sourcePath entries basePath :
  (∀ a p, (a, p) ∈ entries → ∀ r, sourcePath ≠ a +:+ "/" +:+ r) →
  scanAliases env sourcePath entries basePath = basePath.
Proof.
  induction entries as [|[a p] entries IH]; intros H; [done|].
  cbn [scanAliases]. destruct (Js.startsWith sourcePath (a +:+ "/")) eqn:Ha.
  - apply (proj1 (startsWith_spec _ _)) in Ha as [r Hr]. exfalso.
    apply (H a p ltac:(left) r). by rewrite <- sapp_assoc.
  - apply IH. intros a' p' Hin. apply (H a' p'). by right.
Qed.

End Resolver.

(** A table none of whose keys is an array index is listed as declared. *)
Lemma entries_declared {V : Type} (o : object V) :
  (∀ k v, (k, v) ∈ o → Object.arrayIndex k = None) →
  Object.entries o = o.
Proof.
  intros H. unfold Object.entries.
  assert (fold_right (λ kv acc, match Object.arrayIndex kv.1 with
                                | Some n => Object.insertIndexed n kv acc
                                | None => acc
                                end) [] o = []) as ->.
  { induction o as [|[k v] o IH]; [done|]. cbn.
    rewrite (H k v) by left. apply IH. intros k' v' Hin. apply (H k' v'). by right. }
  cbn. induction o as [|[k v] o IH]; [done|].
  rewrite filter_cons_True by (cbn; apply (H k v); left).
  f_equal. apply IH. intros k' v' Hin. apply (H k' v'). by right.
Qed.

Lemma resolveBasePath_alias env opts dirname sourcePath i alias aliasPath rest :
  let entries := Object.entries (default [] (aliases opts)) in
  entries !! i = Some (alias, aliasPath) →
  sourcePath = alias +:+ "/" +:+ rest →
  (∀ j a p, j < i → entries !! j = Some (a, p) →
            ∀ r, sourcePath ≠ a +:+ "/" +:+ r) →
  resolveBasePath env opts dirname sourcePath =
  Path.resolve (cwd env) [aliasPath; rest].
Proof.
  intros entries Hi Hs Hbefore. unfold resolveBasePath. fold entries.
  rewrite (scanAliases_first env _ _ _ i alias aliasPath rest) by done.
  case_decide as Heq; [|done].
  rewrite <- Heq at 1. apply resolve_idempotent, cwd_absolute.
Qed.

Lemma resolveBasePath_relative env opts dirname sourcePath :
  let entries := Object.entries (default [] (aliases opts)) in
  (∀ a p, (a, p) ∈ entries → ∀ r, sourcePath ≠ a +:+ "/" +:+ r) →
  resolveBasePath env opts dirname sourcePath =
  Path.resolve (cwd env) [dirname; sourcePath].
Proof.
  intros entries Hnone. unfold resolveBasePath. fold entries.
  rewrite scanAliases_none by done. by rewrite decide_True.
Qed.

(** C2 (as amended).  The aliases are tried in the order in which
    [Object.entries] lists the table: the keys that are array indices first,
    in ascending order, then the other keys in the order of their
    declaration; a table without such keys is tried as declared.  The first
    alias such that the specifier is the alias, a slash and a remainder
    decides: the base path is the path of the alias resolved with the
    remainder ([path.resolve]), and no later alias is looked at.  An alias
    that the specifier merely contains, or starts with without the slash,
    does not fit.  When no alias fits, the specifier is resolved as it is
    against the directory of the document. *)
Theorem alias_resolution env opts dirname sourcePath :
  let table := default [] (aliases opts) in
  let entries := Object.entries table in
  ((∀ k v, (k, v) ∈ table → Object.arrayIndex k = None) → entries = table) ∧
  (∀ i alias aliasPath rest,
     entries !! i = Some (alias, aliasPath) →
     sourcePath = alias +:+ "/" +:+ rest →
     (∀ j a p, j < i → entries !! j = Some (a, p) →
               ∀ r, sourcePath ≠ a +:+ "/" +:+ r) →
     resolveBasePath env opts dirname sourcePath =
     Path.resolve (cwd env) [aliasPath; rest]) ∧
  ((∀ a p, (a, p) ∈ entries → ∀ r, sourcePath ≠ a +:+ "/" +:+ r) →
     resolveBasePath env opts dirname sourcePath =
     Path.resolve (cwd env) [dirname; sourcePath]).
Proof.
  intros table entries. split; [apply entries_declared|]. split.
  - intros i alias aliasPath rest. apply resolveBasePath_alias.
  - apply resolveBasePath_relative.
Qed.

Lemma alias_resolution_witness :
  resolveBasePath emptyMachine (mergedOptions emptyMachine noOptions)
    "/project/docs" "@code/demo" = "/project/src/code-snippets/demo" ∧
  resolveBasePath emptyMachine (mergedOptions emptyMachine noOptions)
    "/project/docs" "lib/@code/demo" = "/project/docs/lib/@code/demo" ∧
  resolveBasePath emptyMachine (mergedOptions emptyMachine noOptions)
    "/project/docs" "@codex/demo" = "/project/docs/@codex/demo".
Proof.
  split; [|split].
  - destruct (alias_resolution emptyMachine (mergedOptions emptyMachine noOptions)
                "/project/docs" "@code/demo") as (_ & Hfirst & _).
    rewrite (Hfirst 0 "@code" "/project/src/code-snippets" "demo");
      [reflexivity..|]. intros j a p Hj. lia.
  - destruct (alias_resolution emptyMachine (mergedOptions emptyMachine noOptions)
                "/project/docs" "lib/@code/demo") as (_ & _ & Hnone).
    rewrite Hnone; [reflexivity|].
    intros a p Hin r Heq. apply list_elem_of_singleton in Hin.
    injection Hin as -> _. vm_compute in Heq. discriminate Heq.
  - destruct (alias_resolution emptyMachine (mergedOptions emptyMachine noOptions)
                "/project/docs" "@codex/demo") as (_ & _ & Hnone).
    rewrite Hnone; [reflexivity|].
    intros a p Hin r Heq. apply list_elem_of_singleton in Hin.
    injection Hin as -> _. vm_compute in Heq. discriminate Heq.
Defined.

(** C2, the claim as stated fails: of the aliases [@code] (the default),
    [1/a] and [1] (the caller's, declared in this order), the first that
    fits [1/a/b] is [1/a], which would give [/p/b]; [Object.entries] lists
    [1] first, and the resolver takes it. *)
Lemma alias_declaration_order_counterexample :
  firstDeclaredAlias
    (default [] (aliases (defaultOptions emptyMachine)) ++
     default [] (aliases numberedAliases))
    "1/a/b" = Some ("1/a", "/p") ∧
  Path.resolve (cwd emptyMachine) ["/p"; "b"] = "/p/b" ∧
  Object.entries
    (default [] (aliases (mergedOptions emptyMachine numberedAliases))) =
    [("1", "/q"); ("@code", "/project/src/code-snippets"); ("1/a", "/p")] ∧
  resolveBasePath emptyMachine (mergedOptions emptyMachine numberedAliases)
    "/project/docs" "1/a/b" = "/q/a/b".
Proof. repeat split; reflexivity. Qed.

Lemma probe_first env basePath tryExtensions i ext :
  tryExtensions !! i = Some ext →
  existsSync env (basePath +:+ ext) = true →
  (∀ j ext', j < i → tryExtensions !! j = Some ext' →
             existsSync env (basePath +:+ ext') = false) →
  probe env basePath tryExtensions = Some (basePath +:+ ext).
Proof.
  revert i. induction tryExtensions as [|e l IH]; intros i Hi Hex Hbefore; [done|].
  cbn [probe]. destruct i as [|i].
  - injection Hi as ->. by rewrite Hex.
  - rewrite (Hbefore 0 e) by (done || lia).
    apply (IH i); [done..|]. intros j ext' Hj. apply (Hbefore (S j)). lia.
Qed.

Lemma probe_none env basePath tryExtensions :
  probe env basePath tryExtensions = None ↔
  ∀ ext, ext ∈ tryExtensions → existsSync env (basePath +:+ ext) = false.
Proof.
  induction tryExtensions as [|e l IH]; cbn [probe].
  - split; [|done]. intros _ ext Hin. by apply elem_of_nil in Hin.
  - destruct (existsSync env (basePath +:+ e)) eqn:He.
    + split; [done|]. intros H. by rewrite (H e) in He by left.
    + rewrite IH. split.
      * intros H ext [->|Hin]%elem_of_cons; auto.
      * intros H ext Hin. apply H. by right.
Qed.

Lemma probe_ext env env' basePath tryExtensions :
  (∀ ext, ext ∈ tryExtensions →
          existsSync env' (basePath +:+ ext) = existsSync env (basePath +:+ ext)) →
  probe env' basePath tryExtensions = probe env basePath tryExtensions.
Proof.
  induction tryExtensions as [|e l IH]; intros H; [done|].
  cbn [probe]. rewrite (H e) by left. rewrite IH; [done|].
  intros ext Hin. apply H. by right.
Qed.

Lemma resolved_resolveModulePath env opts dirname sourcePath :
  resolved (resolveModulePath env opts dirname sourcePath) =
  probe env (resolveBasePath env opts dirname sourcePath)
        (default [] (extensions opts)).
Proof. unfold resolveModulePath. by destruct (probe _ _ _). Qed.

(** C3.  The candidates are the base path followed by each extension of the
    list, tried in the order of the list: the first candidate that exists is
    returned, whatever candidates exist further down the list. *)
Theorem probe_in_list_order env opts dirname sourcePath i ext :
  let basePath := resolveBasePath env opts dirname sourcePath in
  let tryExtensions := default [] (extensions opts) in
  tryExtensions !! i = Some ext →
  existsSync env (basePath +:+ ext) = true →
  (∀ j ext', j < i → tryExtensions !! j = Some ext' →
             existsSync env (basePath +:+ ext') = false) →
  resolveModulePath env opts dirname sourcePath = inr (basePath +:+ ext).
Proof.
  intros basePath tryExtensions Hi Hex Hbefore. unfold resolveModulePath.
  fold basePath tryExtensions.
  by rewrite (probe_first env basePath tryExtensions i ext).
Qed.

Lemma probe_in_list_order_witness :
  default [] (extensions (mergedOptions twoCandidates noOptions)) !! 0 = Some ".ts" ∧
  existsSync twoCandidates "/project/docs/X.ts" = true ∧
  existsSync twoCandidates "/project/docs/X/index.ts" = true ∧
  resolveModulePath twoCandidates (mergedOptions twoCandidates noOptions)
    "/project/docs" "./X" = inr "/project/docs/X.ts".
Proof.
  split; [reflexivity|]. split; [reflexivity|]. split; [reflexivity|].
  apply (probe_in_list_order twoCandidates (mergedOptions twoCandidates noOptions)
           "/project/docs" "./X" 0 ".ts"); [reflexivity..|].
  intros j ext' Hj. lia.
Defined.

Lemma occursIn_app_l x s t : occursIn x s → occursIn x (s +:+ t).
Proof.
  intros (pre & post & ->). exists pre, (post +:+ t). by rewrite !sapp_assoc.
Qed.

Lemma occursIn_app_r x s t : occursIn x t → occursIn x (s +:+ t).
Proof.
  intros (pre & post & ->). exists (s +:+ pre), post. by rewrite !sapp_assoc.
Qed.

Lemma occursIn_refl x : occursIn x x.
Proof. exists "", "". by rewrite sapp_nil_r. Qed.

Lemma occursIn_join sep x l : x ∈ l → occursIn x (Js.join sep l).
Proof.
  induction l as [|y l IH]; intros Hin; [by apply elem_of_nil in Hin|].
  destruct l as [|z l].
  - apply list_elem_of_singleton in Hin as ->. apply occursIn_refl.
  - rewrite join_cons2. apply elem_of_cons in Hin as [->|Hin].
    + apply occursIn_app_l, occursIn_refl.
    + by apply occursIn_app_r, occursIn_app_r, IH.
Qed.

(** C6.  When no candidate exists, the resolution throws; the message of the
    error holds the specifier as it was given and, for every extension of
    the list, a line with the base path followed by that extension. *)
Theorem resolution_error_lists_candidates env opts dirname sourcePath :
  let basePath := resolveBasePath env opts dirname sourcePath in
  let tryExtensions := default [] (extensions opts) in
  (∀ ext, ext ∈ tryExtensions → existsSync env (basePath +:+ ext) = false) →
  ∃ e, resolveModulePath env opts dirname sourcePath = inl e ∧
       e = PathNotResolved sourcePath basePath tryExtensions ∧
       occursIn sourcePath (message e) ∧
       ∀ ext, ext ∈ tryExtensions →
              occursIn ("- " +:+ (basePath +:+ ext)) (message e).
Proof.
  intros basePath tryExtensions Hnone.
  exists (PathNotResolved sourcePath basePath tryExtensions).
  split; [|split; [done|split]].
  - unfold resolveModulePath. fold basePath tryExtensions.
    by rewrite (proj2 (probe_none env basePath tryExtensions) Hnone).
  - cbn [message]. do 2 apply occursIn_app_r. apply occursIn_app_l, occursIn_refl.
  - intros ext Hin. cbn [message]. do 6 apply occursIn_app_r.
    apply occursIn_app_l, occursIn_join.
    apply (list_elem_of_fmap_2 (λ ext, "- " +:+ (basePath +:+ ext))), Hin.
Qed.

Lemma resolution_error_lists_candidates_witness :
  ∃ e, resolveModulePath emptyMachine (mergedOptions emptyMachine noOptions)
         "/project/docs" "@code/demo" = inl e ∧
       occursIn "@code/demo" (message e) ∧
       occursIn "- /project/src/code-snippets/demo.ts" (message e) ∧
       occursIn "- /project/src/code-snippets/demo/index.jsx" (message e).
Proof.
  destruct (resolution_error_lists_candidates emptyMachine
              (mergedOptions emptyMachine noOptions) "/project/docs" "@code/demo")
    as (e & Hfail & _ & Hname & Hpaths).
  { intros ext _. reflexivity. }
  exists e. split; [exact Hfail|]. split; [exact Hname|]. split.
  - apply (Hpaths ".ts"). vm_compute. left.
  - apply (Hpaths "/index.jsx"). vm_compute. do 7 right. left.
Defined.

(** C10.  The resolution fails exactly when no base path followed by an
    extension of the list exists, and only the existence of these candidates
    counts: machines that agree on them resolve alike, whether or not the
    base path itself exists.  A specifier that already ends in the extension
    of its file is found only through a candidate of the list. *)
Theorem bare_base_path_not_probed env opts dirname sourcePath :
  let basePath := resolveBasePath env opts dirname sourcePath in
  let tryExtensions := default [] (extensions opts) in
  ((∃ e, resolveModulePath env opts dirname sourcePath = inl e) ↔
   (∀ ext, ext ∈ tryExtensions → existsSync env (basePath +:+ ext) = false)) ∧
  (∀ env', cwd env' = cwd env →
     (∀ ext, ext ∈ tryExtensions →
             existsSync env' (basePath +:+ ext) = existsSync env (basePath +:+ ext)) →
     resolveModulePath env' opts dirname sourcePath =
     resolveModulePath env opts dirname sourcePath).
Proof.
  intros basePath tryExtensions. split.
  - rewrite <- probe_none. unfold resolveModulePath. fold basePath tryExtensions.
    destruct (probe env basePath tryExtensions); split; try done.
    + by intros [e ?].
    + eauto.
  - intros env' Hcwd Hsame.
    assert (resolveBasePath env' opts dirname sourcePath = basePath) as Hbase.
    { unfold basePath, resolveBasePath. rewrite Hcwd.
      assert (∀ entries b, scanAliases env' sourcePath entries b =
                          scanAliases env sourcePath entries b) as ->; [|done].
      induction entries as [|[a p] entries IH]; intros b; [done|].
      cbn [scanAliases]. by rewrite IH, Hcwd. }
    unfold resolveModulePath. rewrite Hbase. fold basePath tryExtensions.
    by rewrite (probe_ext env env').
Qed.

Lemma bare_base_path_not_probed_witness :
  resolveBasePath demoBeside (mergedOptions demoBeside noOptions)
    "/project/docs" "./demo.ts" = "/project/docs/demo.ts" ∧
  existsSync demoBeside "/project/docs/demo.ts" = true ∧
  ∃ e, resolveModulePath demoBeside (mergedOptions demoBeside noOptions)
         "/project/docs" "./demo.ts" = inl e.
Proof.
  split; [reflexivity|]. split; [reflexivity|].
  destruct (bare_base_path_not_probed demoBeside (mergedOptions demoBeside noOptions)
              "/project/docs" "./demo.ts") as [[_ Hfails] _].
  apply Hfails. intros ext Hin. vm_compute in Hin.
  repeat (apply elem_of_cons in Hin as [->|Hin]; [reflexivity|]).
  by apply elem_of_nil in Hin.
Defined.








(** ** The transformer *)

Section Transformer.
Context (env : Env) (opts : RemarkCodeSnippetsOptions) (dirname : string).
Context (importMap : gmap string string).

#[local] Abbreviation visited' := (visited env opts dirname importMap).
#[local] Abbreviation passFrom' := (passFrom env opts dirname importMap).
#[local] Abbreviation finalFrom' := (finalFrom env opts dirname importMap).
#[local] Abbreviation finalNode' := (finalNode env opts dirname importMap).

Lemma visitNode_visited st i n :
  tree st !! i = Some n →
  visitNode env opts dirname importMap st i =
  match visited' i n with
  | inl e => inl e
  | inr (n', ts) => inr (State (<[i := n']> (tree st)) (promises st ++ ts))
  end.
Proof.
  intros Hn. unfold visitNode. rewrite Hn. destruct st as [tr ps].
  cbn [tree promises] in *.
  assert (State tr ps = State (<[i:=n]> tr) (ps ++ [])) as Hsame
    by by rewrite list_insert_id, app_nil_r.
  destruct n as [lang meta value| |]; [|by unfold visited; rewrite <- Hsame..].
  unfold visitCode, visited.
  destruct (referenceOf meta) as [varName|]; [|by rewrite <- Hsame].
  destruct (snippetOf _ _ _ _ _) as [e|codeContent]; [done|].
  cbn [bind tree promises].
  destruct (isFalsy lang); [|done]. by rewrite app_nil_r.
Qed.

Lemma visitCodes_passFrom rest : ∀ visitedNodes ps,
  visitCodes env opts dirname importMap
    (seq (length visitedNodes) (length rest))
    (State (visitedNodes ++ rest) ps) =
  let '(rest', ts, r) := passFrom' (length visitedNodes) rest in
  (State (visitedNodes ++ rest') (ps ++ ts), r).
Proof.
  induction rest as [|n rest IH]; intros pre ps; cbn.
  - by rewrite !app_nil_r.
  - rewrite (visitNode_visited _ _ n) by (cbn; by rewrite list_lookup_middle).
    destruct (visited' (length pre) n) as [e|[n' ts]]; cbn.
    + by rewrite app_nil_r.
    + rewrite insert_app_r_alt, Nat.sub_diag by done. cbn [insert list_insert].
      specialize (IH (pre ++ [n']) (ps ++ ts)).
      rewrite length_app in IH. cbn in IH.
      replace (length pre + 1) with (S (length pre)) in IH by lia.
      rewrite <- app_assoc in IH. cbn in IH. rewrite IH.
      destruct (passFrom' (S (length pre)) rest) as [[rest' ts'] r].
      by rewrite <- !app_assoc.
Qed.


Lemma visited_tasks i n n' ts :
  visited' i n = inr (n', ts) → ts = [] ∨ ∃ t, ts = [t] ∧ target t = i.
Proof.
  unfold visited. destruct n as [lang meta value| |]; try (intros [= <- <-]; by left).
  destruct (referenceOf meta); [|intros [= <- <-]; by left].
  destruct (snippetOf _ _ _ _ _); [done|]. cbn [bind].
  destruct (isFalsy lang); intros [= <- <-]; [by left|right]. eauto.
Qed.

Lemma settle_passFrom rest : ∀ pre w rest' ts,
  passFrom' (length pre) rest = (rest', ts, None) →
  fold_left settle ts (pre ++ rest', w) =
  (pre ++ finalFrom' (length pre) rest, w ++ omap warningOf ts).
Proof.
  induction rest as [|n rest IH]; intros pre w rest' ts; cbn [passFrom finalFrom].
  - intros [= <- <-]. cbn. by rewrite !app_nil_r.
  - unfold finalNode.
    destruct (visited' (length pre) n) as [e|[n' tsn]] eqn:Hn; [done|].
    destruct (passFrom' (S (length pre)) rest) as [[rest0 ts0] r0] eqn:Hrest.
    intros [= <- <- ->]. rewrite fold_left_app.
    assert (fold_left settle tsn (pre ++ n' :: rest0, w) =
            ((pre ++ [settled n' tsn]) ++ rest0, w ++ omap warningOf tsn)) as ->.
    { rewrite <- app_assoc. cbn [app].
      destruct (visited_tasks _ _ _ _ Hn) as [->|(t & -> & Ht)].
      - cbn. by rewrite !app_nil_r.
      - cbn [fold_left settled]. unfold settle, warningOf. cbn [fst snd omap list_omap].
        destruct (outcome t); rewrite Ht, alter_app_r_alt, Nat.sub_diag by done;
          cbn [alter list_alter]; by rewrite ?app_nil_r. }
    specialize (IH (pre ++ [settled n' tsn]) (w ++ omap warningOf tsn) rest0 ts0).
    rewrite length_app in IH. cbn [length] in IH.
    replace (length pre + 1) with (S (length pre)) in IH by lia.
    rewrite (IH Hrest), <- !app_assoc, omap_app. done.
Qed.

Lemma finalFrom_lookup rest : ∀ k j,
  finalFrom' k rest !! j = finalNode' (k + j) <$> rest !! j.
Proof.
  induction rest as [|n rest IH]; intros k j; [done|].
  destruct j as [|j]; cbn [finalFrom].
  - cbn. by rewrite Nat.add_0_r.
  - cbn. rewrite IH. by replace (S k + j) with (k + S j) by lia.
Qed.

Lemma passFrom_ok rest : ∀ k,
  (∀ j n, rest !! j = Some n → ∃ r, visited' (k + j) n = inr r) →
  ∃ rest' ts, passFrom' k rest = (rest', ts, None).
Proof.
  induction rest as [|n rest IH]; intros k Hok; cbn [passFrom]; [by eauto|].
  destruct (Hok 0 n eq_refl) as [[n' tsn] Hn]. rewrite Nat.add_0_r in Hn.
  rewrite Hn. destruct (IH (S k)) as (rest' & ts & ->); [|by eauto].
  intros j m Hj. replace (S k + j) with (k + S j) by lia. by apply Hok.
Qed.

Lemma passFrom_tasks rest : ∀ k rest' ts j n n' tsn,
  passFrom' k rest = (rest', ts, None) →
  rest !! j = Some n →
  visited' (k + j) n = inr (n', tsn) →
  tsn ⊆ ts.
Proof.
  induction rest as [|n0 rest IH]; intros k rest' ts j n n' tsn; [done|].
  cbn [passFrom].
  destruct (visited' k n0) as [e|[n0' ts0]] eqn:Hn0; [done|].
  destruct (passFrom' (S k) rest) as [[rest0 ts1] r0] eqn:Hrest.
  intros [= <- <- ->]. destruct j as [|j].
  - intros [= <-]. rewrite Nat.add_0_r, Hn0. intros [= <- <-].
    intros t Ht. apply elem_of_app. by left.
  - cbn. intros Hj Hn. replace (k + S j) with (S k + j) in Hn by lia.
    intros t Ht. apply elem_of_app. right.
    by apply (IH _ _ _ _ _ _ _ Hrest Hj Hn).
Qed.

Lemma passFrom_fails rest : ∀ k j n e,
  rest !! j = Some n →
  visited' (k + j) n = inl e →
  ∃ rest' ts e', passFrom' k rest = (rest', ts, Some e') ∧
    ((∀ j' n', j' < j → rest !! j' = Some n' → ∃ r, visited' (k + j') n' = inr r) →
     e' = e).
Proof.
  induction rest as [|n0 rest IH]; intros k j n e; [done|].
  cbn [passFrom]. destruct j as [|j].
  - intros [= <-]. rewrite Nat.add_0_r. intros ->. by eauto.
  - cbn. intros Hj Hn. replace (k + S j) with (S k + j) in Hn by lia.
    destruct (visited' k n0) as [e0|[n0' ts0]] eqn:Hn0.
    + do 3 eexists. split; [done|]. intros Hbefore.
      destruct (Hbefore 0 n0 ltac:(lia) eq_refl) as [r Hr].
      rewrite Nat.add_0_r in Hr. congruence.
    + destruct (IH (S k) j n e Hj Hn) as (rest' & ts & e' & -> & He').
      do 3 eexists. split; [done|]. intros Hbefore. apply He'.
      intros j' n' Hlt Hj'. replace (S k + j') with (k + S j') by lia.
      apply Hbefore; [lia|done].
Qed.

Lemma passFrom_unchanged rest : ∀ k,
  (∀ j n, rest !! j = Some n → visited' (k + j) n = inr (n, [])) →
  passFrom' k rest = (rest, [], None).
Proof.
  induction rest as [|n rest IH]; intros k H; [done|]. cbn [passFrom].
  pose proof (H 0 n eq_refl) as Hn. rewrite Nat.add_0_r in Hn. rewrite Hn.
  rewrite (IH (S k)); [done|].
  intros j m Hj. replace (S k + j) with (k + S j) by lia. by apply H.
Qed.

Lemma visited_fatal i n e :
  visited' i n = inl e ↔ fatalFailure env opts dirname importMap n e.
Proof.
  split.
  - unfold visited. destruct n as [lang meta value| |]; [|done..].
    destruct (referenceOf meta) as [varName|] eqn:Href; [|done].
    unfold snippetOf.
    destruct (lookupImport importMap varName) as [e1|importPath] eqn:H1;
      cbn [bind]; [intros [= <-]; by eapply UnresolvedReference|].
    destruct (resolveImported env opts dirname importPath)
      as [e2|absolutePath] eqn:H2;
      cbn [bind]; [intros [= <-]; by eapply ResolutionFailure|].
    destruct (readFileSync env absolutePath) as [msg|sourceCode] eqn:H3;
      cbn [bind]; [intros [= <-]; by eapply UnreadableModule|].
    destruct (acornParse env sourceCode) as [msg|ast] eqn:H4;
      cbn [bind]; [intros [= <-]; by eapply MalformedModule|].
    destruct (extractSnippet absolutePath ast varName) as [e5|code] eqn:H5;
      cbn [bind]; [intros [= <-]; by eapply ExtractionFailure|].
    by destruct (isFalsy lang).
  - intros H. destruct H; unfold visited, snippetOf;
      repeat match goal with H : _ = _ |- _ => rewrite H; clear H; cbn [bind] end;
      done.
Qed.

End Transformer.

Section Markers.

Lemma span_spec f s : ∀ a b,
  Re.span f s = (a, b) → s = a +:+ b ∧ allChars f a = true.
Proof.
  induction s as [|c s IH]; intros a b; cbn [Re.span].
  - by intros [= <- <-].
  - destruct (f c) eqn:Hc; [|by intros [= <- <-]].
    destruct (Re.span f s) as [a' b']. intros [= <- <-].
    destruct (IH a' b' eq_refl) as [-> Ha]. split; [done|].
    cbn. by rewrite Hc, Ha.
Qed.

Lemma span_stop f a c rest :
  allChars f a = true → f c = false →
  Re.span f (a +:+ String c rest) = (a, String c rest).
Proof.
  intros Ha Hc. induction a as [|x a IH]; cbn [Re.span].
  - change ("" +:+ ?s) with s. cbn [Re.span]. by rewrite Hc.
  - rewrite sapp_cons. cbn [Re.span]. cbn in Ha.
    apply andb_prop in Ha as [Hx Ha]. by rewrite Hx, (IH Ha).
Qed.

Lemma markerHere_sound s v :
  Re.markerHere s = Some v →
  ∃ post, s = "code={" +:+ v +:+ "}" +:+ post ∧
          v ≠ "" ∧ allChars Re.isIdentifierChar v = true.
Proof.
  unfold Re.markerHere.
  destruct (String.prefix "code={" s) eqn:Hp; [|done].
  apply sprefix_slice in Hp. change (String.length "code={") with 6 in Hp.
  destruct (Re.span Re.isIdentifierChar (Js.slice 6 s)) as [ident rest] eqn:Hspan.
  apply span_spec in Hspan as [Hs Hident].
  destruct (bool_decide (ident ≠ "")) eqn:Hne; [|done].
  destruct (String.prefix "}" rest) eqn:Hb; [|done]. cbn.
  intros [= <-]. apply bool_decide_eq_true in Hne. apply sprefix_slice in Hb.
  exists (Js.slice 1 rest). split; [|done].
  rewrite Hp at 1. rewrite Hs. by rewrite Hb at 1.
Qed.

Lemma matchMarker_unfold s :
  Re.matchMarker s =
  match Re.markerHere s with
  | Some v => Some v
  | None => match s with
            | EmptyString => None
            | String _ s' => Re.matchMarker s'
            end
  end.
Proof. by destruct s. Qed.

Lemma matchMarker_sound s v :
  Re.matchMarker s = Some v →
  ∃ pre post, s = pre +:+ "code={" +:+ v +:+ "}" +:+ post ∧
              v ≠ "" ∧ allChars Re.isIdentifierChar v = true.
Proof.
  induction s as [|c s IH]; rewrite matchMarker_unfold.
  - destruct (Re.markerHere "") eqn:H; [|done]. intros [= ->].
    apply markerHere_sound in H as (post & ? & ? & ?). by exists "", post.
  - destruct (Re.markerHere (String c s)) eqn:H.
    + intros [= ->]. apply markerHere_sound in H as (post & ? & ? & ?).
      by exists "", post.
    + intros (pre & post & -> & ? & ?)%IH. by exists (String c pre), post.
Qed.

Lemma markerHere_complete ident post :
  ident ≠ "" → allChars Re.isIdentifierChar ident = true →
  Re.markerHere ("code={" +:+ ident +:+ "}" +:+ post) = Some ident.
Proof.
  intros Hne Hident. unfold Re.markerHere.
  rewrite sprefix_app.
  change 6 with (String.length "code={"). rewrite slice_app.
  change ("}" +:+ post) with (String "}"%char post).
  rewrite span_stop by done.
  rewrite bool_decide_eq_true_2 by done.
  change (String "}"%char post) with ("}" +:+ post). by rewrite sprefix_app.
Qed.

Lemma matchMarker_complete pre ident post :
  ident ≠ "" → allChars Re.isIdentifierChar ident = true →
  is_Some (Re.matchMarker (pre +:+ "code={" +:+ ident +:+ "}" +:+ post)).
Proof.
  intros Hne Hident. induction pre as [|c pre IH]; rewrite matchMarker_unfold.
  - change ("" +:+ ?s) with s. by rewrite markerHere_complete.
  - rewrite sapp_cons. by destruct (Re.markerHere _).
Qed.

Lemma includes_unfold s p :
  Js.includes s p =
  String.prefix p s ||
  match s with
  | EmptyString => false
  | String _ s' => Js.includes s' p
  end.
Proof. by destruct s. Qed.

Lemma includes_app pre p post : Js.includes (pre +:+ p +:+ post) p = true.
Proof.
  induction pre as [|c pre IH]; rewrite includes_unfold.
  - change ("" +:+ ?s) with s. by rewrite sprefix_app.
  - rewrite sapp_cons, IH. apply orb_true_r.
Qed.

(** The guard of lines 63-66 lets a block through exactly when its
    metadata holds a reference marker. *)
Lemma referenceOf_carriesMarker meta :
  is_Some (referenceOf meta) ↔ carriesMarker meta.
Proof.
  split.
  - intros [v Hv]. unfold referenceOf in Hv. destruct meta as [m|]; [|done].
    destruct (decide (m = "")); [done|].
    destruct (negb _); [done|].
    apply matchMarker_sound in Hv as (pre & post & ? & ? & ?).
    by exists m, pre, v, post.
  - intros (m & pre & ident & post & -> & -> & Hne & Hident).
    unfold referenceOf. rewrite decide_False.
    + rewrite includes_app. cbn [negb]. by apply matchMarker_complete.
    + destruct pre; discriminate.
Qed.

End Markers.

Section Imports.
Context (env : Env).

Lemma collectImports_malformed doc : ∀ j value msg importMap,
  doc !! j = Some (MdxjsEsm value) →
  acornParse env value = inl msg →
  ∃ msg', collectImports env doc importMap = inl (SyntaxError msg').
Proof.
  induction doc as [|n doc IH]; intros j value msg importMap Hj Hparse; [done|].
  destruct j as [|j].
  - injection Hj as ->. cbn. unfold visitEsm. rewrite Hparse. by eauto.
  - cbn in Hj. destruct n as [| value0 |]; cbn [collectImports]; try by eapply IH.
    unfold visitEsm. destruct (acornParse env value0); [by eauto|].
    cbn [bind]. by eapply IH.
Qed.

End Imports.

Lemma transformer_passFrom env opts dirname doc :
  transformer env opts dirname doc =
  match collectImports env doc ∅ with
  | inl e => Run doc [] (inl e)
  | inr importMap =>
      let '(doc1, ts, r) := passFrom env opts dirname importMap 0 doc in
      match r with
      | Some e => Run doc1 [] (inl e)
      | None =>
          let '(doc', warns) := fold_left settle ts (doc1, []) in
          Run doc' warns (inr ())
      end
  end.
Proof.
  unfold transformer. destruct (collectImports env doc ∅) as [e|importMap]; [done|].
  pose proof (visitCodes_passFrom env opts dirname importMap doc [] []) as H.
  cbn [length app] in H. rewrite H.
  by destruct (passFrom env opts dirname importMap 0 doc) as [[doc1 ts] [e|]].
Qed.

Lemma finalNode_shape env opts dirname importMap i n :
  match n with
  | Code _ _ _ => ∃ lang meta value,
      finalNode env opts dirname importMap i n = Code lang meta value
  | _ => finalNode env opts dirname importMap i n = n
  end.
Proof.
  unfold finalNode, visited. destruct n as [lang meta value| |]; [|done..].
  destruct (referenceOf meta); [|by eauto].
  destruct (snippetOf _ _ _ _ _); cbn [bind]; [by eauto|].
  destruct (isFalsy lang); cbn [settled]; [by eauto|].
  cbn [outcome]. destruct (formatCall _ _ _ _); cbn; by eauto.
Qed.

Lemma collectImports_finalFrom env opts dirname importMap doc : ∀ k m,
  collectImports env (finalFrom env opts dirname importMap k doc) m =
  collectImports env doc m.
Proof.
  induction doc as [|n doc IH]; intros k m; [done|]. cbn [finalFrom].
  pose proof (finalNode_shape env opts dirname importMap k n) as Hn.
  destruct n as [lang meta value|value|type].
  - destruct Hn as (lang' & meta' & value' & ->). cbn. apply IH.
  - rewrite Hn. cbn. destruct (visitEsm env m value); [done|]. cbn. apply IH.
  - rewrite Hn. cbn. apply IH.
Qed.

Lemma noMarker_unchanged env opts dirname importMap doc :
  noMarker doc →
  ∀ j n, doc !! j = Some n →
         visited env opts dirname importMap j n = inr (n, []).
Proof.
  intros Hno j n Hj. unfold visited. destruct n as [lang meta value| |]; [|done..].
  destruct (referenceOf meta) as [v|] eqn:Href; [|done].
  exfalso. apply (Hno j lang meta value Hj).
  apply referenceOf_carriesMarker. by rewrite Href.
Qed.

(** C4.  When no import node is malformed and no code block fails to find,
    resolve, read, parse or extract its snippet, the run completes; every
    block with a language tag whose formatting call throws then holds the
    trimmed snippet, and the warning has been printed.  A malformed import
    node rejects the run, and so does any failure of the other classes at a
    code block: the first of them in document order is the error of the
    run.  (A reference to a name the index only inherits fails at the
    resolution, with the [TypeError] of the runtime.) *)
Theorem only_formatting_failure_is_recovered env opts dirname doc :
  (∀ importMap,
     collectImports env doc ∅ = inr importMap →
     (∀ j n e, doc !! j = Some n →
               ¬ fatalFailure env opts dirname importMap n e) →
     ∃ doc' warns,
       transformer env opts dirname doc = Run doc' warns (inr ()) ∧
       ∀ i lang meta value varName codeContent msg,
         doc !! i = Some (Code lang meta value) →
         referenceOf meta = Some varName →
         snippetOf env opts dirname importMap varName = inr codeContent →
         isFalsy lang = false →
         formatCall env opts lang codeContent = inl msg →
         doc' !! i =
           Some (Code lang (strippedMeta <$> meta) (Re.trim codeContent)) ∧
         formatWarning msg ∈ warns) ∧
  (∀ j value msg,
     doc !! j = Some (MdxjsEsm value) →
     acornParse env value = inl msg →
     ∃ msg', completion (transformer env opts dirname doc) =
             inl (SyntaxError msg')) ∧
  (∀ importMap j n e,
     collectImports env doc ∅ = inr importMap →
     doc !! j = Some n →
     fatalFailure env opts dirname importMap n e →
     ∃ e', completion (transformer env opts dirname doc) = inl e' ∧
           ((∀ j' n' e'', j' < j → doc !! j' = Some n' →
                          ¬ fatalFailure env opts dirname importMap n' e'') →
            e' = e)).
Proof.
  split; [|split].
  - intros importMap Himports Hnofatal.
    destruct (passFrom_ok env opts dirname importMap doc 0) as (doc1 & ts & Hpass).
    { intros j n Hj. cbn.
      destruct (visited env opts dirname importMap j n) as [e|r] eqn:Hv; [|by eauto].
      apply visited_fatal in Hv. by destruct (Hnofatal j n e). }
    pose proof (settle_passFrom env opts dirname importMap doc [] [] doc1 ts Hpass)
      as Hsettle. cbn [app length] in Hsettle.
    exists (finalFrom env opts dirname importMap 0 doc), (omap warningOf ts).
    split.
    + by rewrite transformer_passFrom, Himports, Hpass, Hsettle.
    + intros i lang meta value varName codeContent msg Hi Href Hsnippet Hlang Hformat.
      assert (visited env opts dirname importMap i (Code lang meta value) =
              inr (Code lang (strippedMeta <$> meta) value,
                   [Task i (inl msg) (Re.trim codeContent)])) as Hv.
      { unfold visited. rewrite Href, Hsnippet. cbn [bind].
        by rewrite Hlang, Hformat. }
      split.
      * rewrite finalFrom_lookup, Hi. cbn [fmap option_fmap option_map Nat.add].
        unfold finalNode. by rewrite Hv.
      * apply (list_elem_of_omap warningOf).
        exists (Task i (inl msg) (Re.trim codeContent)). split; [|done].
        apply (passFrom_tasks env opts dirname importMap doc 0 doc1 ts i
                 _ _ _ Hpass Hi Hv). by left.
  - intros j value msg Hj Hparse. rewrite transformer_passFrom.
    destruct (collectImports_malformed env doc j value msg ∅ Hj Hparse)
      as [msg' ->]. by eauto.
  - intros importMap j n e Himports Hj Hfatal.
    apply visited_fatal with (i := j) in Hfatal.
    destruct (passFrom_fails env opts dirname importMap doc 0 j n e Hj Hfatal)
      as (doc1 & ts & e' & Hpass & He').
    exists e'. split.
    + by rewrite transformer_passFrom, Himports, Hpass.
    + intros Hbefore. apply He'. intros j' n' Hlt Hj'. cbn.
      destruct (visited env opts dirname importMap j' n') as [e''|r] eqn:Hv;
        [|by eauto].
      apply visited_fatal in Hv. by destruct (Hbefore j' n' e'' Hlt Hj').
Qed.

Lemma only_formatting_failure_is_recovered_witness :
  ∃ doc' warns,
    transformer (project "  const x = ;  " ["const x = ;"])
      (mergedOptions (project "  const x = ;  " ["const x = ;"]) noOptions)
      "/project/docs" page = Run doc' warns (inr ()) ∧
    doc' !! 2 = Some (Code (Some "ts") (Some "") "const x = ;") ∧
    formatWarning "SyntaxError" ∈ warns.
Proof.
  set (env := project "  const x = ;  " ["const x = ;"]).
  set (opts := mergedOptions env noOptions).
  destruct (only_formatting_failure_is_recovered env opts "/project/docs" page)
    as [Hrecovered _].
  destruct (Hrecovered {["snippetA" := "@code/demo"]}) as (doc' & warns & Hrun & Hblock).
  - vm_compute. reflexivity.
  - intros j n e Hj Hfatal. apply (visited_fatal _ _ _ _ j) in Hfatal.
    destruct j as [|[|[|j]]]; [| | |done]; injection Hj as <-;
      vm_compute in Hfatal; discriminate Hfatal.
  - exists doc', warns. split; [exact Hrun|].
    apply (Hblock 2 (Some "ts") (Some "code={snippetA}") "" "snippetA"
             "  const x = ;  " "SyntaxError"); vm_compute; reflexivity.
Defined.

(** C8.  A document none of whose code blocks carries a reference marker is
    left as it is, with nothing printed.  Hence when a run has completed and
    left no marker behind, a second run on its result completes and changes
    nothing. *)
Theorem no_marker_no_change env opts dirname doc :
  (noMarker doc →
   transformer env opts dirname doc =
   Run doc [] (match collectImports env doc ∅ with
               | inl e => inl e
               | inr _ => inr ()
               end)) ∧
  (∀ doc' warns,
     transformer env opts dirname doc = Run doc' warns (inr ()) →
     noMarker doc' →
     transformer env opts dirname doc' = Run doc' [] (inr ())).
Proof.
  assert (∀ d, noMarker d →
            transformer env opts dirname d =
            Run d [] (match collectImports env d ∅ with
                      | inl e => inl e
                      | inr _ => inr ()
                      end)) as Hfirst.
  { intros d Hno. rewrite transformer_passFrom.
    destruct (collectImports env d ∅) as [e|importMap]; [done|].
    rewrite passFrom_unchanged; [done|].
    intros j n Hj. by apply (noMarker_unchanged env opts dirname importMap d). }
  split; [apply Hfirst|].
  intros doc' warns Hrun Hno. rewrite (Hfirst doc' Hno).
  rewrite transformer_passFrom in Hrun.
  destruct (collectImports env doc ∅) as [e|importMap] eqn:Himports; [done|].
  destruct (passFrom env opts dirname importMap 0 doc) as [[doc1 ts] [e|]] eqn:Hpass;
    [done|].
  pose proof (settle_passFrom env opts dirname importMap doc [] [] doc1 ts Hpass)
    as Hsettle. cbn [app length] in Hsettle. rewrite Hsettle in Hrun.
  injection Hrun as <- _.
  by rewrite collectImports_finalFrom, Himports.
Qed.

Lemma no_marker_no_change_witness :
  transformer (project "const x = 1;" []) (mergedOptions (project "const x = 1;" []) noOptions)
    "/project/docs" page =
  Run [ MdxjsEsm "import {snippetA} from '@code/demo'";
        OtherMd "paragraph";
        Code (Some "ts") (Some "") ("const x = 1;" +:+ nl) ] [] (inr ()) ∧
  transformer (project "const x = 1;" []) (mergedOptions (project "const x = 1;" []) noOptions)
    "/project/docs"
    [ MdxjsEsm "import {snippetA} from '@code/demo'";
      OtherMd "paragraph";
      Code (Some "ts") (Some "") ("const x = 1;" +:+ nl) ] =
  Run [ MdxjsEsm "import {snippetA} from '@code/demo'";
        OtherMd "paragraph";
        Code (Some "ts") (Some "") ("const x = 1;" +:+ nl) ] [] (inr ()).
Proof.
  assert (transformer (project "const x = 1;" [])
            (mergedOptions (project "const x = 1;" []) noOptions)
            "/project/docs" page =
          Run [ MdxjsEsm "import {snippetA} from '@code/demo'";
                OtherMd "paragraph";
                Code (Some "ts") (Some "") ("const x = 1;" +:+ nl) ] [] (inr ()))
    as Hfirst by (vm_compute; reflexivity).
  split; [exact Hfirst|].
  destruct (no_marker_no_change (project "const x = 1;" [])
              (mergedOptions (project "const x = 1;" []) noOptions)
              "/project/docs" page) as [_ Hsecond].
  apply (Hsecond _ [] Hfirst).
  intros i lang meta value Hi Hmarker.
  apply referenceOf_carriesMarker in Hmarker as [v Hv].
  destruct i as [|[|[|i]]]; [done|done| |done].
  injection Hi as <- <- <-. discriminate Hv.
Defined.

(** The scenario of the missing module: the run is rejected with the error
    of the resolver, which names every candidate. *)
Example missing_module_rejects_run :
  transformer projectWithoutModule (mergedOptions projectWithoutModule noOptions)
    "/project/docs" page =
  Run page []
    (inl (PathNotResolved "@code/demo" "/project/src/code-snippets/demo"
            [".ts"; ".tsx"; ".js"; ".jsx";
             "/index.ts"; "/index.tsx"; "/index.js"; "/index.jsx"])).
Proof. vm_compute. reflexivity. Qed.

(** The name [__proto__] cannot be imported: the assignment of line 53
    leaves the index without an entry, line 69 finds [Object.prototype]
    itself, and the run is rejected by the runtime at line 86. *)
Example imported_proto_rejects_run :
  collectImports protoMachine protoPage ∅ = inr ∅ ∧
  transformer protoMachine (mergedOptions protoMachine noOptions)
    "/project/docs" protoPage =
  Run protoPage [] (inl (TypeError "sourcePath.startsWith is not a function")).
Proof. split; vm_compute; reflexivity. Qed.

(** * Further properties *)

(** ** The import index *)

Section ImportIndex.

Lemma lastBinding_app {V : Type} k (l1 l2 : list (string * V)) :
  lastBinding k (l1 ++ l2) =
  match lastBinding k l2 with
  | Some v => Some v
  | None => lastBinding k l1
  end.
Proof.
  unfold lastBinding. rewrite filter_app, last_app_option.
  by destruct (last (filter _ l2)).
Qed.

Lemma lastBinding_cons {V : Type} k k' (v : V) l :
  lastBinding k ((k', v) :: l) =
  match lastBinding k l with
  | Some w => Some w
  | None => if decide (k' = k) then Some v else None
  end.
Proof.
  change ((k', v) :: l) with ([(k', v)] ++ l). rewrite lastBinding_app.
  destruct (lastBinding k l); [done|]. unfold lastBinding.
  rewrite filter_cons. cbn. by case_decide.
Qed.

Lemma fold_specifiers_lookup specifiers source (m : gmap string string) k :
  k ≠ "__proto__" →
  fold_left (λ m specifier,
               match specifier with
               | ImportSpecifier _ local => assignImport m local source
               | _ => m
               end) specifiers m !! k =
  match lastBinding k (importBindingsOf (ImportDeclaration specifiers source)) with
  | Some v => Some v
  | None => m !! k
  end.
Proof.
  intros Hk. revert m. induction specifiers as [|sp specifiers IH]; intros m; [done|].
  cbn [fold_left]. rewrite IH. cbn [importBindingsOf omap list_omap].
  fold (omap (λ specifier, match specifier with
                          | ImportSpecifier _ local => Some (local, source)
                          | _ => None
                          end) specifiers).
  change (omap _ specifiers) with
    (importBindingsOf (ImportDeclaration specifiers source)).
  destruct sp as [imported local|local|local]; try done.
  rewrite lastBinding_cons.
  destruct (lastBinding k _); [done|]. unfold assignImport.
  case_decide as Hlocal; case_decide as Hkey; subst; try done.
  - by rewrite lookup_insert_eq.
  - by rewrite lookup_insert_ne.
Qed.

Lemma fold_imports_lookup ns (m : gmap string string) k :
  k ≠ "__proto__" →
  fold_left visitImportDeclaration ns m !! k =
  match lastBinding k (flat_map importBindingsOf ns) with
  | Some v => Some v
  | None => m !! k
  end.
Proof.
  intros Hk. revert m. induction ns as [|n ns IH]; intros m; [done|].
  cbn [fold_left flat_map]. rewrite IH, lastBinding_app.
  destruct (lastBinding k (flat_map importBindingsOf ns)); [done|].
  destruct n; try done. by apply fold_specifiers_lookup.
Qed.

Lemma collectImports_lookup env doc : ∀ m0 m k,
  k ≠ "__proto__" →
  collectImports env doc m0 = inr m →
  m !! k = match lastBinding k (documentImports env doc) with
           | Some v => Some v
           | None => m0 !! k
           end.
Proof.
  induction doc as [|n doc IH]; intros m0 m k Hk;
    cbn [collectImports documentImports].
  - by intros [= <-].
  - destruct n as [| value |]; try by apply IH.
    unfold visitEsm. destruct (acornParse env value) as [msg|ast]; [done|].
    cbn [bind]. intros H. rewrite (IH _ _ _ Hk H), lastBinding_app.
    destruct (lastBinding k (documentImports env doc)); [done|].
    unfold simple. by apply fold_imports_lookup.
Qed.

(** No import node gives the index an entry [__proto__]. *)
Lemma fold_specifiers_proto specifiers source (m : gmap string string) :
  m !! "__proto__" = None →
  fold_left (λ m specifier,
               match specifier with
               | ImportSpecifier _ local => assignImport m local source
               | _ => m
               end) specifiers m !! "__proto__" = None.
Proof.
  revert m. induction specifiers as [|sp specifiers IH]; intros m Hm; [done|].
  cbn [fold_left]. apply IH. destruct sp as [imported local|local|local]; try done.
  unfold assignImport. case_decide; [done|]. by rewrite lookup_insert_ne.
Qed.

Lemma collectImports_proto env doc : ∀ m0 m,
  m0 !! "__proto__" = None →
  collectImports env doc m0 = inr m →
  m !! "__proto__" = None.
Proof.
  induction doc as [|n doc IH]; intros m0 m Hm0; cbn [collectImports].
  - by intros [= <-].
  - destruct n as [| value |]; try by apply IH.
    unfold visitEsm. destruct (acornParse env value) as [msg|ast]; [done|].
    cbn [bind]. apply IH. unfold simple.
    generalize (postorder ast). intros ns. revert m0 Hm0.
    induction ns as [|n ns IHns]; intros m0 Hm0; [done|].
    cbn [fold_left]. apply IHns. destruct n; try done.
    by apply fold_specifiers_proto.
Qed.

Lemma ownName_proto k : ownName k = true → k ≠ "__proto__".
Proof. by intros H ->. Qed.

End ImportIndex.

(** X1.  The import index binds a name (one that [Object.prototype] does
    not define) exactly when a named import specifier of an import node has
    it as its local name, and binds it to the source of the last such
    specifier in document order: default and namespace imports leave no
    entry, an alias is entered under its local name, and a later import of
    the same name replaces an earlier one. *)
Theorem import_index_last_named_binding env doc importMap :
  collectImports env doc ∅ = inr importMap →
  ∀ k, ownName k = true →
       importMap !! k = lastBinding k (documentImports env doc).
Proof.
  intros H k Hk%ownName_proto.
  rewrite (collectImports_lookup env doc ∅ importMap k Hk H).
  rewrite lookup_empty. by destruct (lastBinding _ _).
Qed.

Lemma import_index_last_named_binding_witness :
  ∃ importMap,
    collectImports (machine [] mixedImports []) mixedImportsPage ∅ = inr importMap ∧
    importMap !! "a" = Some "./m2" ∧
    importMap !! "c" = Some "./m1" ∧
    importMap !! "b" = None ∧
    importMap !! "def" = None ∧
    importMap !! "ns" = None.
Proof.
  destruct (collectImports (machine [] mixedImports []) mixedImportsPage ∅)
    as [e|importMap] eqn:H; [vm_compute in H; discriminate H|].
  exists importMap. split; [reflexivity|].
  rewrite !(import_index_last_named_binding _ _ _ H) by reflexivity.
  repeat split; vm_compute; reflexivity.
Defined.

(** A visit that throws with no failure before it rejects the run with
    what it throws. *)
Lemma first_failure_rejects env opts dirname doc importMap j n e :
  collectImports env doc ∅ = inr importMap →
  doc !! j = Some n →
  visited env opts dirname importMap j n = inl e →
  (∀ j' n' e', j' < j → doc !! j' = Some n' →
               ¬ fatalFailure env opts dirname importMap n' e') →
  completion (transformer env opts dirname doc) = inl e.
Proof.
  intros Himports Hj Hv Hbefore.
  destruct (passFrom_fails env opts dirname importMap doc 0 j _ _ Hj Hv)
    as (doc1 & ts & e' & Hpass & He').
  rewrite transformer_passFrom, Himports, Hpass. cbn. f_equal. apply He'.
  intros j' n' Hlt Hj'. cbn.
  destruct (visited env opts dirname importMap j' n') as [e''|r] eqn:Hv';
    [|by eauto].
  apply visited_fatal in Hv'. by destruct (Hbefore j' n' e'' Hlt Hj').
Qed.

(** The own entry of the index under a name. *)
Lemma collectImports_entry env doc importMap k :
  collectImports env doc ∅ = inr importMap →
  importMap !! k =
  if decide (k = "__proto__") then None
  else lastBinding k (documentImports env doc).
Proof.
  intros H. case_decide as Hk.
  - subst k. by apply (collectImports_proto env doc ∅).
  - rewrite (collectImports_lookup env doc ∅ importMap k Hk H), lookup_empty.
    by destruct (lastBinding _ _).
Qed.

(** X2.  A code block that refers to an identifier which no named import
    binds rejects the run, provided the import nodes parse and no earlier
    block fails.  For an identifier that [Object.prototype] does not define
    the error is the one of lines 72-77, whose message names the
    identifier; so it is for any identifier but [__proto__] that an import
    binds to the empty specifier.  For a name of [Object.prototype]
    ([constructor], [toString], ...; [__proto__] whether imported or not)
    the index yields the inherited member, line 71 lets it through, and the
    run is rejected with the [TypeError] of the runtime instead: the one of
    line 86 when the alias table has an entry, the one of line 94 when it
    has none. *)
Theorem unbound_identifier_rejects_run
    env opts dirname doc importMap j lang meta value varName :
  collectImports env doc ∅ = inr importMap →
  doc !! j = Some (Code lang meta value) →
  referenceOf meta = Some varName →
  (∀ j' n' e', j' < j → doc !! j' = Some n' →
               ¬ fatalFailure env opts dirname importMap n' e') →
  (ownName varName = true ∧
   lastBinding varName (documentImports env doc) = None ∨
   varName ≠ "__proto__" ∧
   lastBinding varName (documentImports env doc) = Some "" →
   completion (transformer env opts dirname doc) = inl (ImportNotFound varName) ∧
   occursIn varName (message (ImportNotFound varName))) ∧
  (ownName varName = false →
   lastBinding varName (documentImports env doc) = None ∨ varName = "__proto__" →
   completion (transformer env opts dirname doc) =
   inl (TypeError
          (typeErrorMessage env
             match Object.entries (default [] (aliases opts)) with
             | _ :: _ => NotAFunction varName
             | [] => NotAPath varName
             end))).
Proof.
  intros Himports Hj Href Hbefore.
  pose proof (collectImports_entry env doc importMap varName Himports) as Hentry.
  split.
  - intros Hunbound. split.
    + apply (first_failure_rejects env opts dirname doc importMap j
               (Code lang meta value)); [done..| |done].
      unfold visited, snippetOf, lookupImport, getImport. rewrite Href, Hentry.
      destruct Hunbound as [[Hown Hnone]|[Hproto Hempty]].
      * rewrite decide_False by by apply ownName_proto.
        rewrite Hnone. unfold ownName in Hown.
        by destruct (isOneOf varName inheritedNames).
      * by rewrite decide_False, Hempty.
    + cbn [message]. do 2 apply occursIn_app_r. apply occursIn_app_l, occursIn_refl.
  - intros Hown Hunbound.
    apply (first_failure_rejects env opts dirname doc importMap j
             (Code lang meta value)); [done..| |done].
    unfold visited, snippetOf, lookupImport, getImport. rewrite Href, Hentry.
    assert ((if decide (varName = "__proto__") then None
             else lastBinding varName (documentImports env doc)) = None) as ->.
    { case_decide; [done|]. by destruct Hunbound. }
    unfold ownName in Hown. destruct (isOneOf varName inheritedNames); [|done].
    cbn [bind resolveImported].
    by destruct (Object.entries (default [] (aliases opts))).
Qed.

Lemma unbound_identifier_rejects_run_witness :
  (completion (transformer defaultImportMachine
                 (mergedOptions defaultImportMachine noOptions)
                 "/project/docs" defaultImportPage) =
     inl (ImportNotFound "snippetA") ∧
   occursIn "snippetA" (message (ImportNotFound "snippetA"))) ∧
  completion (transformer emptyMachine (mergedOptions emptyMachine noOptions)
                "/project/docs" inheritedPage) =
    inl (TypeError "sourcePath.startsWith is not a function").
Proof.
  split.
  - apply (unbound_identifier_rejects_run defaultImportMachine
             (mergedOptions defaultImportMachine noOptions) "/project/docs"
             defaultImportPage ∅ 1 None (Some "code={snippetA}") "" "snippetA").
    + vm_compute. reflexivity.
    + reflexivity.
    + reflexivity.
    + intros j' n' e' Hlt Hj' Hfatal.
      destruct j' as [|j']; [|lia]. injection Hj' as <-. inversion Hfatal.
    + left. split; reflexivity.
  - apply (unbound_identifier_rejects_run emptyMachine
             (mergedOptions emptyMachine noOptions) "/project/docs"
             inheritedPage ∅ 0 (Some "js") (Some "code={constructor}") "" "constructor").
    + reflexivity.
    + reflexivity.
    + reflexivity.
    + intros j' n' e' Hlt. lia.
    + reflexivity.
    + left. reflexivity.
Defined.

(** ** The resolver and the options *)

Section ResolverMore.
Context (env : Env).

Lemma probe_app basePath l1 l2 :
  probe env basePath (l1 ++ l2) =
  match probe env basePath l1 with
  | Some p => Some p
  | None => probe env basePath l2
  end.
Proof.
  induction l1 as [|e l1 IH]; [done|]. cbn.
  by destruct (existsSync env (basePath +:+ e)).
Qed.

Lemma probe_sound basePath tryExtensions p :
  probe env basePath tryExtensions = Some p →
  existsSync env p = true ∧
  ∃ i ext, tryExtensions !! i = Some ext ∧ p = basePath +:+ ext ∧
    ∀ j ext', j < i → tryExtensions !! j = Some ext' →
              existsSync env (basePath +:+ ext') = false.
Proof.
  induction tryExtensions as [|e l IH]; [done|]. cbn [probe].
  destruct (existsSync env (basePath +:+ e)) eqn:He.
  - intros [= <-]. split; [done|]. exists 0, e. repeat split; [done..|].
    intros j ext' Hj. lia.
  - intros (Hp & i & ext & Hi & -> & Hbefore)%IH. split; [done|].
    exists (S i), ext. repeat split; [done..|].
    intros [|j] ext' Hj Hl; [by injection Hl as <-|].
    apply (Hbefore j); [lia|done].
Qed.

Lemma scanAliases_cases sourcePath entries basePath :
  scanAliases env sourcePath entries basePath = basePath ∨
  ∃ args, scanAliases env sourcePath entries basePath = Path.resolve (cwd env) args.
Proof.
  induction entries as [|[a p] entries IH]; [by left|]. cbn [scanAliases].
  destruct (Js.startsWith _ _); [right; by eauto|apply IH].
Qed.

Lemma resolve_isAbsolute args : Path.isAbsolute (Path.resolve (cwd env) args) = true.
Proof.
  destruct (resolve_shape (cwd env) args (cwd_absolute env)) as (segs & _ & ->).
  apply sprefix_app.
Qed.

Lemma resolveBasePath_isAbsolute opts dirname sourcePath :
  Path.isAbsolute (resolveBasePath env opts dirname sourcePath) = true.
Proof.
  unfold resolveBasePath. case_decide as Heq; [apply resolve_isAbsolute|].
  destruct (scanAliases_cases sourcePath
              (Object.entries (default [] (aliases opts))) sourcePath)
    as [H|[args ->]]; [done|apply resolve_isAbsolute].
Qed.

Lemma isAbsolute_append a b :
  Path.isAbsolute a = true → Path.isAbsolute (a +:+ b) = true.
Proof.
  unfold Path.isAbsolute. intros H. rewrite (sprefix_slice _ _ H), sapp_assoc.
  apply sprefix_app.
Qed.

Lemma scanAliases_some sourcePath entries basePath a p rest :
  (a, p) ∈ entries →
  sourcePath = a +:+ "/" +:+ rest →
  ∃ a' p' rest', (a', p') ∈ entries ∧ sourcePath = a' +:+ "/" +:+ rest' ∧
    scanAliases env sourcePath entries basePath =
    Path.resolve (cwd env) [p'; rest'].
Proof.
  intros Hin Hs. induction entries as [|[a0 p0] entries IH];
    [by apply elem_of_nil in Hin|].
  cbn [scanAliases]. destruct (Js.startsWith sourcePath (a0 +:+ "/")) eqn:H0.
  - apply (proj1 (startsWith_spec _ _)) in H0 as [r Hr].
    exists a0, p0, r. split; [left|]. rewrite sapp_assoc in Hr. split; [done|].
    rewrite Hr at 1. by rewrite <- (sapp_assoc a0 "/" r), replace_prefix.
  - apply elem_of_cons in Hin as [[= <- <-]|Hin].
    + exfalso. assert (Js.startsWith sourcePath (a +:+ "/") = true) as H1;
        [|by rewrite H1 in H0].
      apply (proj2 (startsWith_spec _ _)). exists rest. by rewrite sapp_assoc.
    + destruct (IH Hin) as (a' & p' & rest' & Hin' & Hs' & ->).
      exists a', p', rest'. split; [by right|done].
Qed.

End ResolverMore.

Section Objects.
Context {V : Type}.

Lemma insertIndexed_perm n (kv : string * V) l :
  Object.insertIndexed n kv l ≡ₚ (n, kv) :: l.
Proof.
  induction l as [|[m kv'] l IH]; [done|]. cbn.
  destruct (n <? m)%N; [done|]. rewrite IH. apply Permutation_swap.
Qed.

(** [Object.entries] lists every property of the object once. *)
Lemma entries_perm (o : object V) : Object.entries o ≡ₚ o.
Proof.
  unfold Object.entries. induction o as [|kv o IH]; [done|].
  cbn [fold_right]. destruct (Object.arrayIndex kv.1) as [n|] eqn:Hkv.
  - rewrite filter_cons_False by (cbn; by rewrite Hkv).
    rewrite insertIndexed_perm. cbn. by rewrite IH.
  - rewrite filter_cons_True by done.
    rewrite <- Permutation_middle. by rewrite IH.
Qed.

Lemma entry_set (o : object V) k v k' :
  entry (Object.set o k v) k' =
  if decide (k' = k) then Some v else entry o k'.
Proof.
  unfold entry. induction o as [|[k0 v0] o IH]; cbn [Object.set find].
  - cbn. case_bool_decide; case_decide; cbn; congruence.
  - destruct (decide (k0 = k)) as [->|Hne]; cbn [find fst].
    + case_bool_decide; case_decide; cbn; congruence.
    + case_bool_decide as H0; [|apply IH].
      rewrite decide_False by congruence. done.
Qed.

Lemma entry_fold l : ∀ (o : object V) k,
  entry (fold_left (λ o kv, Object.set o kv.1 kv.2) l o) k =
  match lastBinding k l with
  | Some v => Some v
  | None => entry o k
  end.
Proof.
  induction l as [|[k0 v0] l IH]; intros o k; [done|].
  cbn [fold_left]. rewrite IH, lastBinding_cons.
  destruct (lastBinding k l); [done|]. cbn. rewrite entry_set.
  repeat case_decide; congruence.
Qed.

Lemma entry_elem_of (o : object V) k v :
  NoDup o.*1 → entry o k = Some v ↔ (k, v) ∈ o.
Proof.
  unfold entry. induction o as [|[k0 v0] o IH]; intros Hnd; cbn.
  - split; [done|]. intros H. by apply elem_of_nil in H.
  - apply NoDup_cons in Hnd as [Hk0 Hnd]. case_bool_decide as H0; cbn in *.
    + subst k0. split.
      * intros [= ->]. left.
      * intros [[= ->]|Hin]%elem_of_cons; [done|].
        exfalso. apply Hk0. apply list_elem_of_fmap. by exists (k, v).
    + rewrite (IH Hnd). split; [by right|].
      intros [[= -> ->]|Hin]%elem_of_cons; [done|done].
Qed.

Lemma lastBinding_elem_of (o : object V) k v :
  NoDup o.*1 → lastBinding k o = Some v ↔ (k, v) ∈ o.
Proof.
  revert v. induction o as [|[k0 v0] o IH]; intros v Hnd.
  - split; [done|]. intros H. by apply elem_of_nil in H.
  - apply NoDup_cons in Hnd as [Hk0 Hnd]. rewrite lastBinding_cons.
    pose proof (λ v, IH v Hnd) as IH'. clear IH.
    destruct (lastBinding k o) as [w|].
    + assert ((k, w) ∈ o) as Hin by by apply IH'. split.
      * intros [= ->]. by right.
      * intros [[= <- <-]|Hin']%elem_of_cons.
        -- exfalso. apply Hk0. apply list_elem_of_fmap. by exists (k, w).
        -- by apply IH'.
    + cbn. case_decide as H0.
      * subst k0. split; [intros [= ->]; left|].
        intros [[= ->]|Hin]%elem_of_cons; [done|]. by apply IH' in Hin.
      * split; [done|]. intros [[= -> ->]|Hin]%elem_of_cons; [done|].
        by apply IH' in Hin.
Qed.

Lemma lastBinding_entries (o : object V) k :
  NoDup o.*1 → lastBinding k (Object.entries o) = entry o k.
Proof.
  intros Hnd.
  assert (NoDup (Object.entries o).*1) as Hnd'.
  { by rewrite (entries_perm o). }
  destruct (entry o k) as [v|] eqn:Hp.
  - apply lastBinding_elem_of; [done|]. rewrite (entries_perm o).
    by apply entry_elem_of.
  - destruct (lastBinding k (Object.entries o)) as [v|] eqn:Hl; [|done].
    apply lastBinding_elem_of in Hl; [|done]. rewrite (entries_perm o) in Hl.
    apply entry_elem_of in Hl; [|done]. congruence.
Qed.

(** [{ ...a, ...b }[k]] is [b[k]] where [b] has the key, and [a[k]] else. *)
Lemma entry_spread (a b : object V) k :
  NoDup a.*1 → NoDup b.*1 →
  entry (Object.spread a b) k =
  match entry b k with
  | Some v => Some v
  | None => entry a k
  end.
Proof.
  intros Ha Hb. unfold Object.spread.
  rewrite entry_fold, lastBinding_app, !lastBinding_entries by done.
  destruct (entry b k); [done|]. by destruct (entry a k).
Qed.

End Objects.

(** X3.  A path returned by the resolver exists on the machine and is
    absolute: it is the base path followed by an extension of the list, and
    no candidate of an earlier extension exists. *)
Theorem resolved_path_exists env opts dirname sourcePath fullPath :
  resolveModulePath env opts dirname sourcePath = inr fullPath →
  existsSync env fullPath = true ∧
  Path.isAbsolute fullPath = true ∧
  ∃ i ext,
    default [] (extensions opts) !! i = Some ext ∧
    fullPath = resolveBasePath env opts dirname sourcePath +:+ ext ∧
    ∀ j ext', j < i → default [] (extensions opts) !! j = Some ext' →
      existsSync env (resolveBasePath env opts dirname sourcePath +:+ ext') = false.
Proof.
  unfold resolveModulePath.
  destruct (probe env _ _) as [p|] eqn:Hp; [|done]. intros [= <-].
  apply probe_sound in Hp as (Hex & i & ext & Hi & -> & Hbefore).
  split; [done|]. split; [|by exists i, ext].
  apply isAbsolute_append, resolveBasePath_isAbsolute.
Qed.

Lemma resolved_path_exists_witness :
  existsSync (project "" []) "/project/src/code-snippets/demo.ts" = true ∧
  Path.isAbsolute "/project/src/code-snippets/demo.ts" = true.
Proof.
  destruct (resolved_path_exists (project "" [])
              (mergedOptions (project "" []) noOptions)
              "/project/docs" "@code/demo" "/project/src/code-snippets/demo.ts")
    as (Hex & Habs & _); [vm_compute; reflexivity|].
  by split.
Defined.

(** X4.  A specifier that fits an alias of the table (the alias, a slash
    and a remainder) is always resolved through an alias that fits, never
    against the directory of the document: its resolution is the same from
    every document. *)
Theorem alias_specifier_ignores_directory env opts sourcePath alias aliasPath rest :
  (alias, aliasPath) ∈ default [] (aliases opts) →
  sourcePath = alias +:+ "/" +:+ rest →
  (∃ a p r,
     (a, p) ∈ default [] (aliases opts) ∧ sourcePath = a +:+ "/" +:+ r ∧
     ∀ dirname,
       resolveBasePath env opts dirname sourcePath = Path.resolve (cwd env) [p; r]) ∧
  (∀ dirname dirname',
     resolveModulePath env opts dirname sourcePath =
     resolveModulePath env opts dirname' sourcePath).
Proof.
  intros Hin Hs.
  assert (∃ a p r,
     (a, p) ∈ default [] (aliases opts) ∧ sourcePath = a +:+ "/" +:+ r ∧
     ∀ dirname,
       resolveBasePath env opts dirname sourcePath = Path.resolve (cwd env) [p; r])
    as Hbase.
  { rewrite <- (entries_perm (default [] (aliases opts))) in Hin.
    destruct (scanAliases_some env sourcePath _ sourcePath _ _ _ Hin Hs)
      as (a & p & r & Hin' & Hs' & Hscan).
    exists a, p, r. rewrite (entries_perm (default [] (aliases opts))) in Hin'.
    split; [done|]. split; [done|]. intros dirname.
    unfold resolveBasePath. rewrite Hscan. case_decide as Heq; [|done].
    rewrite <- Heq at 1. apply resolve_idempotent, cwd_absolute. }
  split; [done|]. destruct Hbase as (a & p & r & _ & _ & Hbase).
  intros dirname dirname'. unfold resolveModulePath. by rewrite !Hbase.
Qed.

Lemma alias_specifier_ignores_directory_witness :
  resolveModulePath libMachine callerOptions "/project/docs" "@docs/guide/x" =
  resolveModulePath libMachine callerOptions "/elsewhere" "@docs/guide/x".
Proof.
  apply (alias_specifier_ignores_directory libMachine callerOptions
           "@docs/guide/x" "@docs" "/project/docs" "guide/x").
  - vm_compute. right. left.
  - reflexivity.
Defined.

(** X5.  The extensions of the caller are tried after the default ones: with
    the merged options, the file is the first existing candidate of the
    default list and, only when the default list has none, the first
    existing candidate of the caller's list. *)
Theorem default_extensions_first env options dirname sourcePath :
  let opts := mergedOptions env options in
  let basePath := resolveBasePath env opts dirname sourcePath in
  resolved (resolveModulePath env opts dirname sourcePath) =
  match probe env basePath [".ts"; ".tsx"; ".js"; ".jsx";
                            "/index.ts"; "/index.tsx"; "/index.js"; "/index.jsx"] with
  | Some fullPath => Some fullPath
  | None => probe env basePath (default [] (extensions options))
  end.
Proof.
  intros opts basePath. rewrite resolved_resolveModulePath.
  exact (probe_app env _ _ _).
Qed.

(** X6.  In the merged alias table an alias of the caller replaces the
    default alias of the same name, and the default alias [@code] stays
    where the caller gives none.  (An object holds a key once.) *)
Theorem caller_alias_overrides_default env options k :
  NoDup (default [] (aliases options)).*1 →
  entry (default [] (aliases (mergedOptions env options))) k =
  match entry (default [] (aliases options)) k with
  | Some aliasPath => Some aliasPath
  | None =>
      if decide (k = "@code")
      then Some (Path.resolve (cwd env) [cwd env; "src/code-snippets"])
      else None
  end.
Proof.
  intros Hnd. cbn [mergedOptions aliases default defaultOptions id].
  rewrite entry_spread; [|apply NoDup_singleton|done].
  destruct (entry _ k); [done|]. unfold entry. cbn.
  case_bool_decide; case_decide; cbn; congruence.
Qed.

Lemma caller_alias_overrides_default_witness :
  entry (default [] (aliases (mergedOptions libMachine callerOptions))) "@code" =
    Some "/lib/snippets" ∧
  entry (default [] (aliases (mergedOptions libMachine callerOptions))) "@docs" =
    Some "/project/docs" ∧
  entry (default [] (aliases (mergedOptions libMachine noOptions))) "@code" =
    Some "/project/src/code-snippets".
Proof.
  split; [|split].
  - apply (caller_alias_overrides_default libMachine callerOptions "@code").
    vm_compute. apply (bool_decide_unpack _). reflexivity.
  - apply (caller_alias_overrides_default libMachine callerOptions "@docs").
    vm_compute. apply (bool_decide_unpack _). reflexivity.
  - apply (caller_alias_overrides_default libMachine noOptions "@code").
    vm_compute. apply NoDup_nil_2.
Defined.

(** X7.  The formatter is called on the trimmed snippet with the merged
    Prettier options: the parser is the one of the language tag, whatever
    parser the caller asked for; any other option is the caller's where the
    caller gives one and the default one otherwise. *)
Theorem formatter_options env options lang codeContent :
  NoDup (default [] (prettierOptions options)).*1 →
  ∃ formatOptions,
    formatCall env (mergedOptions env options) lang codeContent =
      prettierFormat env (Re.trim codeContent) formatOptions ∧
    entry formatOptions "parser" = Some (getParserForLang lang) ∧
    ∀ k, k ≠ "parser" →
      entry formatOptions k =
      match entry (default [] (prettierOptions options)) k with
      | Some v => Some v
      | None => entry (default [] (prettierOptions (defaultOptions env))) k
      end.
Proof.
  intros Hnd. eexists. split; [reflexivity|].
  split; [by rewrite entry_set, decide_True|].
  intros k Hk. rewrite entry_set, decide_False by done.
  cbn [mergedOptions prettierOptions default defaultOptions id].
  rewrite entry_spread; [done| |done].
  cbn. apply (bool_decide_unpack _). reflexivity.
Qed.

Lemma formatter_options_witness :
  ∃ formatOptions,
    formatCall libMachine (mergedOptions libMachine callerOptions) (Some "TS") "x" =
      prettierFormat libMachine (Re.trim "x") formatOptions ∧
    entry formatOptions "parser" = Some "typescript" ∧
    entry formatOptions "semi" = Some "false" ∧
    entry formatOptions "tabWidth" = Some "2".
Proof.
  destruct (formatter_options libMachine callerOptions (Some "TS") "x")
    as (formatOptions & Hcall & Hparser & Hother).
  - vm_compute. apply (bool_decide_unpack _). reflexivity.
  - exists formatOptions. split; [done|]. split; [done|].
    split; [by rewrite Hother|by rewrite Hother].
Defined.

(** ** The extractor, from its result *)

Lemma matchDeclarator_Some varName d code :
  matchDeclarator varName d = Some code ↔
  ∃ quasis expressions,
    d = VariableDeclarator (Identifier varName)
          (Some (TemplateLiteral quasis expressions)) ∧
    code = cookedText quasis.
Proof.
  split.
  - destruct d as [[] [[]|]]; try done. cbn. case_decide; [|done].
    intros [= <-]. subst. by eauto.
  - intros (quasis & expressions & -> & ->). cbn. by rewrite decide_True.
Qed.

(** X8.  A text the extractor returns is never empty, and it is the cooked
    text of a declarator of the module that binds the identifier to a
    template literal. *)
Theorem extracted_text_is_declared absolutePath ast varName code :
  extractSnippet absolutePath ast varName = inr code →
  code ≠ "" ∧
  ∃ quasis expressions,
    VariableDeclarator (Identifier varName)
      (Some (TemplateLiteral quasis expressions)) ∈ visitedDeclarators ast ∧
    code = cookedText quasis.
Proof.
  unfold extractSnippet. rewrite findCode_last.
  destruct (last (matchingTexts ast varName)) as [c|] eqn:Hlast; [|done].
  case_decide as Hne; [done|]. intros [= <-]. split; [done|].
  apply last_Some_elem_of in Hlast. unfold matchingTexts in Hlast.
  apply list_elem_of_omap in Hlast as (d & Hd & Hmatch).
  apply matchDeclarator_Some in Hmatch as (quasis & expressions & -> & ->).
  by eauto.
Qed.

Lemma extracted_text_is_declared_witness :
  "nested" ≠ "" ∧
  ∃ quasis expressions,
    VariableDeclarator (Identifier "snippet")
      (Some (TemplateLiteral quasis expressions)) ∈ visitedDeclarators twoScopes ∧
    "nested" = cookedText quasis.
Proof.
  apply (extracted_text_is_declared "/src/demo.ts" twoScopes "snippet" "nested").
  reflexivity.
Defined.

(** X9.  The extractor throws exactly when no declarator of the module binds
    the identifier to a template literal, or when the one visited last has
    an empty text; what it throws names the file and the identifier. *)
Theorem extraction_failure absolutePath ast varName :
  ((∃ e, extractSnippet absolutePath ast varName = inl e) ↔
   (∀ d, d ∈ visitedDeclarators ast → matchDeclarator varName d = None) ∨
   last (matchingTexts ast varName) = Some "") ∧
  (∀ e, extractSnippet absolutePath ast varName = inl e →
        e = ExportNotFound absolutePath varName ∧
        occursIn absolutePath (message e) ∧
        occursIn varName (message e)).
Proof.
  assert ((∀ d, d ∈ visitedDeclarators ast → matchDeclarator varName d = None) ↔
          last (matchingTexts ast varName) = None) as Hnone.
  { rewrite last_None. unfold matchingTexts. split.
    - intros H. destruct (omap _ _) as [|c l] eqn:Hl; [done|].
      assert (c ∈ omap (matchDeclarator varName) (visitedDeclarators ast)) as Hc
        by (rewrite Hl; left).
      apply list_elem_of_omap in Hc as (d & Hd & Hm). by rewrite (H d Hd) in Hm.
    - intros H d Hd. destruct (matchDeclarator varName d) as [c|] eqn:Hm; [|done].
      assert (c ∈ omap (matchDeclarator varName) (visitedDeclarators ast)) as Hc
        by (apply list_elem_of_omap; eauto).
      rewrite H in Hc. by apply elem_of_nil in Hc. }
  rewrite Hnone. unfold extractSnippet. rewrite findCode_last.
  destruct (last (matchingTexts ast varName)) as [c|].
  - case_decide as Hc.
    + subst c. split; [split; [by right|by eauto]|].
      intros e [= <-]. split; [done|]. cbn [message]. split.
      * apply occursIn_app_r, occursIn_app_l, occursIn_refl.
      * do 3 apply occursIn_app_r. apply occursIn_refl.
    + split; [|done]. split; [by intros [e ?]|]. intros [?|[= ?]]; done.
  - split; [split; [by left|by eauto]|].
    intros e [= <-]. split; [done|]. cbn [message]. split.
    + apply occursIn_app_r, occursIn_app_l, occursIn_refl.
    + do 3 apply occursIn_app_r. apply occursIn_refl.
Qed.

(** ** The run, from its result *)

Section TransformerMore.
Context (env : Env) (opts : RemarkCodeSnippetsOptions) (dirname : string).
Context (importMap : gmap string string).

#[local] Abbreviation visited' := (visited env opts dirname importMap).
#[local] Abbreviation passFrom' := (passFrom env opts dirname importMap).
#[local] Abbreviation finalFrom' := (finalFrom env opts dirname importMap).
#[local] Abbreviation finalNode' := (finalNode env opts dirname importMap).



(** The visits up to the one that throws. *)
Lemma passFrom_rejected rest : ∀ k rest' ts e,
  passFrom' k rest = (rest', ts, Some e) →
  ∃ f n,
    rest !! f = Some n ∧ visited' (k + f) n = inl e ∧
    (∀ j m, j < f → rest !! j = Some m →
       ∃ m' tsm, visited' (k + j) m = inr (m', tsm) ∧ rest' !! j = Some m') ∧
    (∀ j, f ≤ j → rest' !! j = rest !! j).
Proof.
  induction rest as [|n0 rest IH]; intros k rest' ts e; [done|].
  cbn [passFrom].
  destruct (visited' k n0) as [e0|[n0' ts0]] eqn:Hn0.
  - intros [= <- <- <-]. exists 0, n0. rewrite Nat.add_0_r.
    split; [done|]. split; [done|]. split; [intros; lia|done].
  - destruct (passFrom' (S k) rest) as [[rest0 ts1] r0] eqn:Hrest.
    intros [= <- <- ->].
    destruct (IH _ _ _ _ Hrest) as (f & n & Hf & Hn & Hbefore & Hafter).
    exists (S f), n. replace (k + S f) with (S k + f) by lia.
    split; [done|]. split; [done|]. split.
    + intros [|j] m Hlt.
      * intros [= <-]. rewrite Nat.add_0_r. by eauto.
      * cbn. intros Hj. replace (k + S j) with (S k + j) by lia.
        apply Hbefore; [lia|done].
    + intros [|j] Hle; [lia|]. cbn. apply Hafter. lia.
Qed.

End TransformerMore.


(** A run that is rejected: by the index builder, with the document
    untouched, or by a visit. *)
Lemma transformer_rejected env opts dirname doc doc' warns e :
  transformer env opts dirname doc = Run doc' warns (inl e) →
  warns = [] ∧
  (collectImports env doc ∅ = inl e ∧ doc' = doc ∨
   ∃ importMap ts,
     collectImports env doc ∅ = inr importMap ∧
     passFrom env opts dirname importMap 0 doc = (doc', ts, Some e)).
Proof.
  rewrite transformer_passFrom.
  destruct (collectImports env doc ∅) as [e0|importMap].
  - intros [= <- <- <-]. split; [done|]. by left.
  - destruct (passFrom env opts dirname importMap 0 doc) as [[doc1 ts] [e0|]] eqn:Hpass.
    + intros [= <- <- <-]. split; [done|]. right. by eauto.
    + by destruct (fold_left settle ts (doc1, [])).
Qed.

Section Frame.
Context (env : Env) (opts : RemarkCodeSnippetsOptions) (dirname : string).
Context (importMap : gmap string string).

Lemma sameShape_refl n : sameShape n n.
Proof. destruct n; cbn; by eauto. Qed.

Lemma visited_sameShape i n n' ts :
  visited env opts dirname importMap i n = inr (n', ts) → sameShape n n'.
Proof.
  unfold visited. destruct n as [lang meta value| |]; [|by intros [= <- <-]..].
  destruct (referenceOf meta) eqn:Href; [|intros [= <- <-]; apply sameShape_refl].
  destruct (snippetOf _ _ _ _ _); [done|]. cbn [bind].
  destruct (isFalsy lang); intros [= <- <-]; cbn;
    (do 2 eexists; split; [done|by rewrite Href]).
Qed.

Lemma finalNode_sameShape i n :
  sameShape n (finalNode env opts dirname importMap i n).
Proof.
  unfold finalNode.
  destruct (visited env opts dirname importMap i n) as [e|[n' ts]] eqn:Hv;
    [apply sameShape_refl|].
  pose proof (visited_sameShape _ _ _ _ Hv) as Hshape.
  destruct (visited_tasks _ _ _ _ _ _ _ _ Hv) as [->|(t & -> & _)]; [done|].
  cbn [settled]. unfold visited in Hv.
  destruct n as [lang meta value| |]; [|discriminate Hv..].
  destruct (referenceOf meta) eqn:Href; [|discriminate Hv].
  destruct (snippetOf _ _ _ _ _); [done|]. cbn [bind] in Hv.
  destruct (isFalsy lang); [discriminate Hv|]. injection Hv as <- <-.
  cbn. destruct (formatCall _ _ _ _); cbn;
    (do 2 eexists; split; [done|by rewrite Href]).
Qed.

Lemma passFrom_length rest : ∀ k rest' ts r,
  passFrom env opts dirname importMap k rest = (rest', ts, r) →
  length rest' = length rest.
Proof.
  induction rest as [|n rest IH]; intros k rest' ts r; cbn [passFrom].
  - by intros [= <- _ _].
  - destruct (visited _ _ _ _ k n) as [e|[n' tsn]]; [by intros [= <- _ _]|].
    destruct (passFrom _ _ _ _ (S k) rest) as [[rest0 ts0] r0] eqn:Hrest.
    intros [= <- _ _]. cbn. f_equal. by eapply IH.
Qed.

Lemma passFrom_sameShape rest : ∀ k rest' ts r j n,
  passFrom env opts dirname importMap k rest = (rest', ts, r) →
  rest !! j = Some n →
  ∃ n', rest' !! j = Some n' ∧ sameShape n n'.
Proof.
  induction rest as [|n0 rest IH]; intros k rest' ts r j n; [done|].
  cbn [passFrom].
  destruct (visited _ _ _ _ k n0) as [e|[n0' ts0]] eqn:Hn0.
  - intros [= <- _ _] Hj. exists n. split; [done|apply sameShape_refl].
  - destruct (passFrom _ _ _ _ (S k) rest) as [[rest0 ts1] r0] eqn:Hrest.
    intros [= <- _ _]. destruct j as [|j].
    + intros [= <-]. exists n0'. split; [done|]. by eapply visited_sameShape.
    + cbn. by eapply IH.
Qed.

End Frame.

Lemma finalFrom_length env opts dirname importMap rest : ∀ k,
  length (finalFrom env opts dirname importMap k rest) = length rest.
Proof. induction rest as [|n rest IH]; intros k; [done|]. cbn. by rewrite IH. Qed.

Lemma collectImports_rejected env doc : ∀ m e,
  collectImports env doc m = inl e →
  ∃ j value msg,
    doc !! j = Some (MdxjsEsm value) ∧ acornParse env value = inl msg ∧
    e = SyntaxError msg.
Proof.
  induction doc as [|n doc IH]; intros m e; [done|].
  assert (∀ m', collectImports env doc m' = inl e →
            ∃ j value msg,
              (n :: doc) !! j = Some (MdxjsEsm value) ∧
              acornParse env value = inl msg ∧ e = SyntaxError msg) as Hrest.
  { intros m' (j & value & msg & ? & ? & ?)%IH. by exists (S j), value, msg. }
  destruct n as [| value |]; cbn [collectImports]; [apply Hrest| |apply Hrest].
  unfold visitEsm. destruct (acornParse env value) as [msg|ast] eqn:Hparse.
  - intros [= <-]. by exists 0, value, msg.
  - cbn [bind]. apply Hrest.
Qed.



(** X11.  Whether a run completes or is rejected, the document keeps its
    nodes in number and kind: a node that is no code block is left as it is,
    a code block keeps its language tag, and a code block without reference
    keeps its metadata and its value as well. *)
Theorem run_preserves_shape env opts dirname doc :
  length (document (transformer env opts dirname doc)) = length doc ∧
  ∀ i n, doc !! i = Some n →
    match n with
    | Code lang meta value =>
        ∃ meta' value',
          document (transformer env opts dirname doc) !! i =
            Some (Code lang meta' value') ∧
          (referenceOf meta = None → meta' = meta ∧ value' = value)
    | _ => document (transformer env opts dirname doc) !! i = Some n
    end.
Proof.
  assert (∀ i n, doc !! i = Some n →
            ∃ n', document (transformer env opts dirname doc) !! i = Some n' ∧
                  sameShape n n') as Hshape.
  { intros i n Hi. rewrite transformer_passFrom.
    destruct (collectImports env doc ∅) as [e|importMap];
      [exists n; split; [done|apply sameShape_refl]|].
    destruct (passFrom env opts dirname importMap 0 doc) as [[doc1 ts] [e|]] eqn:Hpass.
    - by eapply passFrom_sameShape.
    - pose proof (settle_passFrom env opts dirname importMap doc [] [] doc1 ts Hpass)
        as H. cbn [app length] in H. rewrite H. cbn [document].
      rewrite finalFrom_lookup, Hi. eexists. split; [done|].
      apply finalNode_sameShape. }
  split.
  - rewrite transformer_passFrom.
    destruct (collectImports env doc ∅) as [e|importMap]; [done|].
    destruct (passFrom env opts dirname importMap 0 doc) as [[doc1 ts] [e|]] eqn:Hpass.
    + by eapply passFrom_length.
    + pose proof (settle_passFrom env opts dirname importMap doc [] [] doc1 ts Hpass)
        as H. cbn [app length] in H. rewrite H. apply finalFrom_length.
  - intros i n Hi. destruct (Hshape i n Hi) as (n' & Hn' & Hs).
    destruct n as [lang meta value| |]; cbn in Hs.
    + destruct Hs as (meta' & value' & -> & Hkeep). by eauto.
    + by subst n'.
    + by subst n'.
Qed.



(** X13.  A run that is rejected leaves the document half-way: either an
    import node did not parse and no node was touched, or the visit of a
    code block threw, the first one to fail in document order; the nodes
    from that block on are as they were, and every block with a reference
    before it holds its rewritten metadata already (what line 166 makes of
    the old one: its first [code={...}] cut out, trimmed). *)
Theorem rejected_run_state env opts dirname doc doc' warns e :
  transformer env opts dirname doc = Run doc' warns (inl e) →
  (∃ j value msg,
     doc !! j = Some (MdxjsEsm value) ∧ acornParse env value = inl msg ∧
     e = SyntaxError msg ∧ doc' = doc) ∨
  (∃ importMap f n,
     collectImports env doc ∅ = inr importMap ∧
     doc !! f = Some n ∧
     fatalFailure env opts dirname importMap n e ∧
     (∀ j m e', j < f → doc !! j = Some m →
                ¬ fatalFailure env opts dirname importMap m e') ∧
     (∀ j, f ≤ j → doc' !! j = doc !! j) ∧
     (∀ j lang meta value varName,
        j < f → doc !! j = Some (Code lang meta value) →
        referenceOf meta = Some varName →
        ∃ value', doc' !! j = Some (Code lang (strippedMeta <$> meta) value'))).
Proof.
  intros [_ [[Himports ->]|(importMap & ts & Himports & Hpass)]]%transformer_rejected.
  - left. apply collectImports_rejected in Himports as (j & value & msg & ? & ? & ?).
    by exists j, value, msg.
  - right. apply passFrom_rejected in Hpass as (f & n & Hf & Hn & Hbefore & Hafter).
    cbn [Nat.add] in Hn. exists importMap, f, n.
    split; [done|]. split; [done|]. split; [by apply visited_fatal in Hn|].
    split; [|split; [done|]].
    + intros j m e' Hlt Hj Hfatal. apply (visited_fatal _ _ _ _ j) in Hfatal.
      destruct (Hbefore j m Hlt Hj) as (m' & tsm & Hm & _). cbn [Nat.add] in Hm.
      congruence.
    + intros j lang meta value varName Hlt Hj Href.
      destruct (Hbefore j _ Hlt Hj) as (m' & tsm & Hm & ->). cbn [Nat.add] in Hm.
      unfold visited in Hm. rewrite Href in Hm.
      destruct (snippetOf _ _ _ _ _); [done|]. cbn [bind] in Hm.
      destruct (isFalsy lang); injection Hm as <- _; by eauto.
Qed.

Lemma rejected_run_state_witness :
  ∃ doc',
    transformer (project "  let a  " []) (mergedOptions (project "  let a  " []) noOptions)
      "/project/docs" brokenPage = Run doc' [] (inl (ImportNotFound "missing")) ∧
    doc' !! 2 = Some (Code (Some "ts") (Some "code={missing}") "untouched") ∧
    doc' !! 3 = Some (Code None (Some "code={snippetA}") "later").
Proof.
  set (env := project "  let a  " []).
  set (opts := mergedOptions env noOptions).
  exists (document (transformer env opts "/project/docs" brokenPage)).
  assert (transformer env opts "/project/docs" brokenPage =
          Run (document (transformer env opts "/project/docs" brokenPage)) []
              (inl (ImportNotFound "missing")))
    as Hrun by (vm_compute; reflexivity).
  split; [exact Hrun|].
  destruct (rejected_run_state env opts "/project/docs" brokenPage _ _ _ Hrun)
    as [(j & value & msg & _ & _ & Heq & _)|
        (importMap & f & n & Himports & Hf & Hfatal & _ & Hafter & _)];
    [discriminate Heq|].
  vm_compute in Himports. injection Himports as <-.
  assert (f = 2) as ->.
  { apply (visited_fatal _ _ _ _ f) in Hfatal.
    destruct f as [|[|[|[|f]]]]; try (cbn in Hf; discriminate Hf);
      injection Hf as <-; vm_compute in Hfatal;
      (discriminate Hfatal || reflexivity). }
  split; [by rewrite (Hafter 2)|by rewrite (Hafter 3) by lia].
Defined.

(** ** The marker in the metadata *)

Section MarkerText.

Lemma allChars_impl (f g : ascii → bool) s :
  (∀ c, f c = true → g c = true) → allChars f s = true → allChars g s = true.
Proof.
  intros Hfg. induction s as [|c s IH]; [done|]. cbn.
  intros [Hc Hs]%andb_prop. by rewrite (Hfg c Hc), (IH Hs).
Qed.

Lemma isIdentifierChar_not_brace c :
  Re.isIdentifierChar c = true → bool_decide (c ≠ "}"%char) = true.
Proof.
  intros H. apply bool_decide_eq_true. intros ->. discriminate H.
Qed.

(** No match of either expression starts inside a text without brace that
    comes before [code={]. *)
Lemma prefix_before_marker pre rest :
  pre ≠ "" → braceFree pre = true →
  String.prefix "code={" (pre +:+ "code={" +:+ rest) = false.
Proof.
  intros Hne Hfree.
  destruct (String.prefix _ _) eqn:H; [|done]. exfalso.
  apply sprefix_slice in H. revert H. generalize (Js.slice (String.length "code={")
    (pre +:+ "code={" +:+ rest)). intros r H.
  destruct pre as [|c1 [|c2 [|c3 [|c4 [|c5 [|c6 pre]]]]]]; [done|..];
    rewrite ?sapp_cons in H; change ("" +:+ ?s) with s in H;
    change ("code={" +:+ ?s) with
      (String "c" (String "o" (String "d" (String "e" (String "=" (String "{" s))))))
      in H;
    try (injection H as; congruence).
  injection H as -> -> -> -> -> -> _. discriminate Hfree.
Qed.

Lemma markerHere_no_prefix s :
  String.prefix "code={" s = false → Re.markerHere s = None.
Proof. unfold Re.markerHere. by intros ->. Qed.

Lemma stripHere_no_prefix s :
  String.prefix "code={" s = false → Re.stripHere s = None.
Proof. unfold Re.stripHere. by intros ->. Qed.

Lemma matchMarker_first pre ident post :
  braceFree pre = true →
  ident ≠ "" → allChars Re.isIdentifierChar ident = true →
  Re.matchMarker (pre +:+ "code={" +:+ ident +:+ "}" +:+ post) = Some ident.
Proof.
  intros Hfree Hne Hident. induction pre as [|c pre IH]; rewrite matchMarker_unfold.
  - change ("" +:+ ?s) with s. by rewrite markerHere_complete.
  - rewrite markerHere_no_prefix by by apply prefix_before_marker.
    rewrite sapp_cons. apply IH. cbn in Hfree. by apply andb_prop in Hfree as [_ ?].
Qed.

Lemma stripMarker_unfold s :
  Re.stripMarker s =
  match Re.stripHere s with
  | Some rest => rest
  | None => match s with
            | EmptyString => ""
            | String c s' => String c (Re.stripMarker s')
            end
  end.
Proof. by destruct s. Qed.

Lemma stripHere_marker body post :
  body ≠ "" → allChars (λ c, bool_decide (c ≠ "}"%char)) body = true →
  Re.stripHere ("code={" +:+ body +:+ "}" +:+ post) = Some (Re.trimStart post).
Proof.
  intros Hne Hbody. unfold Re.stripHere. rewrite sprefix_app.
  change 6 with (String.length "code={"). rewrite slice_app.
  change ("}" +:+ post) with (String "}"%char post).
  rewrite span_stop by done. by destruct body.
Qed.

Lemma stripMarker_first pre body post :
  braceFree pre = true →
  body ≠ "" → allChars (λ c, bool_decide (c ≠ "}"%char)) body = true →
  Re.stripMarker (pre +:+ "code={" +:+ body +:+ "}" +:+ post) =
  pre +:+ Re.trimStart post.
Proof.
  intros Hfree Hne Hbody. induction pre as [|c pre IH]; rewrite stripMarker_unfold.
  - change ("" +:+ ?s) with s. by rewrite stripHere_marker.
  - rewrite stripHere_no_prefix by by apply prefix_before_marker.
    rewrite !sapp_cons. f_equal. apply IH. cbn in Hfree.
    by apply andb_prop in Hfree as [_ ?].
Qed.

End MarkerText.

(** X14.  For metadata that holds a marker [code={identifier}] with no
    opening brace before it, the reference is that identifier, and the
    metadata the block is left with is what stood before the marker followed
    by what stood after it, without the white space that followed the
    marker, trimmed at both ends. *)
Theorem marker_found_and_stripped pre ident post :
  braceFree pre = true →
  ident ≠ "" →
  allChars Re.isIdentifierChar ident = true →
  referenceOf (Some (pre +:+ "code={" +:+ ident +:+ "}" +:+ post)) = Some ident ∧
  strippedMeta (pre +:+ "code={" +:+ ident +:+ "}" +:+ post) =
    Re.trim (pre +:+ Re.trimStart post).
Proof.
  intros Hfree Hne Hident. split.
  - unfold referenceOf. rewrite decide_False by (destruct pre; discriminate).
    rewrite includes_app. cbn [negb]. by apply matchMarker_first.
  - unfold strippedMeta. rewrite stripMarker_first; [done..|].
    apply (allChars_impl Re.isIdentifierChar); [|done].
    apply isIdentifierChar_not_brace.
Qed.

Lemma marker_found_and_stripped_witness :
  referenceOf (Some "title=a code={snippetA}   wide ") = Some "snippetA" ∧
  strippedMeta "title=a code={snippetA}   wide " = "title=a wide".
Proof.
  destruct (marker_found_and_stripped "title=a " "snippetA" "   wide ")
    as [Href Hstrip]; [reflexivity|discriminate|reflexivity|].
  split; [exact Href|]. etrans; [exact Hstrip|]. vm_compute. reflexivity.
Defined.

Section MarkerMismatch.







End MarkerMismatch.



(** ** The formatter dispatch *)

Section LowerCase.

#[local] Abbreviation kelvin := (Re.bytes [226; 132; 170]).

Lemma kelvin_prefix s :
  String.prefix kelvin s = true →
  ∃ t, s = String (ascii_of_nat 226) (String (ascii_of_nat 132)
             (String (ascii_of_nat 170) t)).
Proof. intros H. apply sprefix_slice in H. eexists. exact H. Qed.

Lemma toLowerCase_unfold c s :
  Re.toLowerCase (String c s) =
  if String.prefix kelvin (String c s)
  then String "k" (Re.toLowerCase (Js.slice 2 s))
  else String (lowerChar c) (Re.toLowerCase s).
Proof.
  cbn [Re.toLowerCase]. unfold lowerChar.
  destruct (String.prefix kelvin (String c s)) eqn:Hk; [|by destruct (Re.between _ _ _)].
  apply kelvin_prefix in Hk as [t Ht]. by injection Ht as _ ->.
Qed.

Lemma lowerChar_capital c : Re.between 65 90 (lowerChar c) = false.
Proof. by destruct c as [[] [] [] [] [] [] [] []]. Qed.

Lemma lowerChar_high c :
  Re.between 0 127 (lowerChar c) = false → lowerChar c = c.
Proof. by destruct c as [[] [] [] [] [] [] [] []]. Qed.

(** Where the lower case of a text starts with a character that is not
    ASCII, the text starts with that character. *)
Lemma toLowerCase_head s x t :
  Re.toLowerCase s = String x t →
  Re.between 0 127 x = false →
  ∃ s', s = String x s' ∧ Re.toLowerCase s' = t.
Proof.
  destruct s as [|c s]; [done|]. rewrite toLowerCase_unfold.
  destruct (String.prefix kelvin (String c s)).
  - intros [= <- <-]. done.
  - intros [= <- <-] Hx. rewrite (lowerChar_high c Hx). by eauto.
Qed.

(** KELVIN SIGN does not occur at the start of a lower case. *)
Lemma toLowerCase_kelvin s :
  String.prefix kelvin (Re.toLowerCase s) = false.
Proof.
  destruct (String.prefix kelvin (Re.toLowerCase s)) eqn:Hk; [|done].
  apply sprefix_slice in Hk. revert Hk.
  generalize (Js.slice (String.length kelvin) (Re.toLowerCase s)). intros r Hk.
  change (kelvin +:+ r) with
    (String (ascii_of_nat 226) (String (ascii_of_nat 132)
       (String (ascii_of_nat 170) r))) in Hk.
  pose proof Hk as Hs.
  apply toLowerCase_head in Hs as (s1 & -> & Hs); [|done].
  apply toLowerCase_head in Hs as (s2 & -> & Hs); [|done].
  apply toLowerCase_head in Hs as (s3 & -> & _); [|done].
  rewrite toLowerCase_unfold in Hk.
  change (String (ascii_of_nat 226) (String (ascii_of_nat 132)
            (String (ascii_of_nat 170) s3))) with (kelvin +:+ s3) in Hk.
  rewrite sprefix_app in Hk. discriminate Hk.
Qed.

Lemma toLowerCase_idempotent_upto n : ∀ s,
  String.length s ≤ n → Re.toLowerCase (Re.toLowerCase s) = Re.toLowerCase s.
Proof.
  induction n as [|n IH]; intros [|c s] Hn; [done|cbn in Hn; lia|done|].
  cbn in Hn. rewrite toLowerCase_unfold.
  destruct (String.prefix kelvin (String c s)) eqn:Hk.
  - rewrite toLowerCase_unfold. cbn [String.prefix Re.bytes fold_right].
    destruct (ascii_dec _ _) as [|_]; [done|]. f_equal. apply IH.
    apply kelvin_prefix in Hk as [t Ht]. injection Ht as _ ->. cbn in *. lia.
  - pose proof (toLowerCase_kelvin (String c s)) as Hlow.
    rewrite toLowerCase_unfold, Hk in Hlow.
    rewrite toLowerCase_unfold, Hlow.
    unfold lowerChar at 1. rewrite lowerChar_capital. f_equal. apply IH. lia.
Qed.

Lemma toLowerCase_idempotent s :
  Re.toLowerCase (Re.toLowerCase s) = Re.toLowerCase s.
Proof. by apply (toLowerCase_idempotent_upto (String.length s)). Qed.

End LowerCase.

(** X16.  The language tag is compared without regard to case: a tag and its
    lower case select the same parser. *)
Theorem parser_ignores_case lang :
  getParserForLang (Some (Re.toLowerCase lang)) = getParserForLang (Some lang).
Proof.
  unfold getParserForLang. destruct lang as [|c s]; [reflexivity|].
  rewrite (decide_False (P := String c s = "")) by done.
  rewrite (decide_False (P := Re.toLowerCase (String c s) = ""))
    by (rewrite toLowerCase_unfold; by destruct (String.prefix _ _)).
  by rewrite toLowerCase_idempotent.
Qed.
